(** * Threshold-time error estimates: the cG(q) core, embedded and verified

    The Python sources [basis_functions.py], [solvers.py] and
    [NSQoI_and_error_functions.py] are embedded as functions over an
    arbitrary ordered field [R] (exact arithmetic; binary64 rounding is not
    modelled).  Python exceptions are values of the type [exn] carried by
    the error monad [result]; Python sequences are [seq]; Python integers
    used as indices are [int], so that negative indices wrap around the
    way they do in Python.  The numbers are NumPy's: a division by zero
    raises nothing, and its outcome is a [float64], a number of [R] or a
    value that is not finite. *)

From HB Require Import structures.
From mathcomp Require Import boot order algebra.

Set Implicit Arguments.
Unset Strict Implicit.
Unset Printing Implicit Defensive.

Import Order.TTheory GRing.Theory Num.Theory.

Local Open Scope ring_scope.

(** ** Exceptions and the error monad *)

Inductive exn : Type :=
  | IndexError
  | UnboundLocalError
  | ZeroDivisionError
  | LinAlgError
  | ValueError.

Inductive result (A : Type) : Type :=
  | Ok of A
  | Raise of exn.

Arguments Raise {A} e.

Definition bind (A B : Type) (c : result A) (k : A -> result B) : result B :=
  match c with
  | Ok a => k a
  | Raise e => Raise e
  end.

Notation "'let!' x ':=' c 'in' k" := (bind c (fun x => k))
  (at level 200, x name, c at level 100, k at level 200, right associativity).

Definition is_ok (A : Type) (c : result A) : bool :=
  if c is Ok _ then true else false.

(** Encodings used to equip [exn], [result] and [window] with a decidable
    equality. *)
Definition exn_code (e : exn) : nat :=
  match e with
  | IndexError => 0
  | UnboundLocalError => 1
  | ZeroDivisionError => 2
  | LinAlgError => 3
  | ValueError => 4
  end.

Definition exn_of_code (n : nat) : exn :=
  match n with
  | 0 => IndexError
  | 1 => UnboundLocalError
  | 2 => ZeroDivisionError
  | 3 => LinAlgError
  | _ => ValueError
  end.

Definition sum_of_result (A : Type) (c : result A) : A + exn :=
  match c with
  | Ok a => inl a
  | Raise e => inr e
  end.

Definition result_of_sum (A : Type) (c : A + exn) : result A :=
  match c with
  | inl a => Ok a
  | inr e => Raise e
  end.

(** ** Python sequences: indexing, slicing, loops *)

(** [s[n]] for a non-negative index. *)
Fixpoint item (A : Type) (s : seq A) (n : nat) : result A :=
  match s, n with
  | [::], _ => Raise IndexError
  | x :: _, 0%N => Ok x
  | _ :: s', n'.+1 => item s' n'
  end.

(** [s[k]] for a Python integer: a negative [k] counts from the end. *)
Definition getitem (A : Type) (s : seq A) (k : int) : result A :=
  match k with
  | Posz n => item s n
  | Negz n =>
      if (n < size s)%N then item s (size s - n.+1) else Raise IndexError
  end.

(** [s[0:k]]: slices never raise; a negative stop counts from the end and
    is clipped at 0. *)
Definition slice0 (A : Type) (s : seq A) (k : int) : seq A :=
  match k with
  | Posz n => take n s
  | Negz n => take (size s - n.+1) s
  end.

(** [for x in xs: s = body(x, s)], stopping at the first exception. *)
Fixpoint forM (A S : Type) (xs : seq A) (body : A -> S -> result S) (s : S)
  : result S :=
  match xs with
  | [::] => Ok s
  | x :: xs' => let! s' := body x s in forM xs' body s'
  end.

Section Core.

Variable R : realFieldType.

(** ** NumPy floats *)

(** The arrays of this repository hold NumPy floats, and so do the values
    read from them.  Dividing such a value by zero raises nothing: NumPy
    gives [inf], [-inf] or [nan] with a [RuntimeWarning], and the call goes
    on.  The ordered field [R] has no such values: the outcome of a
    division is a number of [R] or [NotFinite], which stands for [inf],
    [-inf] and [nan] without telling them apart. *)
Inductive float64 : Type :=
  | Finite of R
  | NotFinite.

Definition option_of_float64 (u : float64) : option R :=
  if u is Finite x then Some x else None.

Definition float64_of_option (o : option R) : float64 :=
  if o is Some x then Finite x else NotFinite.

(** [x / y] on NumPy floats: a zero divisor gives [inf], [-inf] or [nan]. *)
Definition truediv (x y : R) : float64 :=
  if y == 0 then NotFinite else Finite (x / y).

(** [u + v], [u - v] and [u * v]: with [inf], [-inf] or [nan] on either
    side the result is again one of them ([inf - inf] and [inf * 0] are
    [nan]). *)
Definition float_op (op : R -> R -> R) (u v : float64) : float64 :=
  match u, v with
  | Finite x, Finite y => Finite (op x y)
  | _, _ => NotFinite
  end.

Definition float_add : float64 -> float64 -> float64 := float_op +%R.
Definition float_sub : float64 -> float64 -> float64 :=
  float_op (fun x y => x - y).
Definition float_mul : float64 -> float64 -> float64 := float_op *%R.

(** ** basis_functions.py *)

(** [np.linspace(start, stop, num)] in exact arithmetic:
    [arange(num) * ((stop - start) / (num - 1)) + start]. *)
Definition linspace (start stop : R) (num : nat) : seq R :=
  [seq k%:R * ((stop - start) / (num.-1)%:R) + start | k <- iota 0 num].

(** One pass of the product loop shared by [Lagr], [dLagr] and [TestLagr]:
    [if keep k: v *= (x - I[k]) / (I[j] - I[k])]. *)
Definition lagr_step (I : seq R) (keep : pred nat) (j : nat) (x : R)
    (v : R) (k : nat) : R :=
  if keep k then v * ((x - I`_k) / (I`_j - I`_k)) else v.

Definition Lagr (initial final : R) (degree j : nat) (x : R) : R :=
  let I := linspace initial final degree.+1 in
  foldl (lagr_step I (fun k => k != j) j x) 1 (iota 0 degree.+1).

Definition dLagr (initial final : R) (degree j : nat) (x : R) : R :=
  let I := linspace initial final degree.+1 in
  foldl (fun d m =>
           let v := foldl (lagr_step I (fun k => (k != j) && (k != m)) j x)
                          1 (iota 0 degree.+1) in
           if m != j then d + (1 / (I`_j - I`_m)) * v else d)
        0 (iota 0 degree.+1).

Definition TestLagr (initial final : R) (degree j : nat) (x : R) : R :=
  let It := linspace initial final degree in
  if (1 < degree)%N
  then foldl (lagr_step It (fun k => k != j) j x) 1 (iota 0 degree)
  else 1.

(** The inner loop of [evalfunc] and [evalderiv]:
    [for j in range(q+1): ans += Y[q*i+j] * basis(t[i], t[i+1], q, j, x)]. *)
Definition accumulate (basis : R -> R -> nat -> nat -> R -> R)
    (Y t : seq R) (q : nat) (x : R) (i : nat) (ans : R) : result R :=
  forM (iota 0 q.+1)
       (fun j ans => let! y := item Y (q * i + j) in
                     Ok (ans + y * basis t`_i t`_i.+1 q j x))
       ans.

(** The outer loop: every subinterval [i] with [t[i] <= x < t[i+1]]
    contributes; when none does, [ans] keeps its initial value. *)
Definition piecewise (basis : R -> R -> nat -> nat -> R -> R)
    (Y t : seq R) (q : nat) (x : R) (ans : R) : result R :=
  forM (iota 0 (size t).-1)
       (fun i ans => if (t`_i <= x) && (x < t`_i.+1)
                     then accumulate basis Y t q x i ans
                     else Ok ans)
       ans.

Definition evalfunc (Y t : seq R) (q : nat) (x : R) : result R :=
  let ans := 0 in
  let! tlast := getitem t (-1) in
  if x == tlast then getitem Y (-1)
  else piecewise Lagr Y t q x ans.

Definition evalderiv (Y t : seq R) (q : nat) (x : R) : result R :=
  let ans := 0 in
  piecewise dLagr Y t q x ans.

(** ** NSQoI_and_error_functions.py: [window_numtime] *)

(** The thirteen entries of the list returned by [window_numtime]; the
    last one comes out of a division. *)
Record window : Type := Window {
  YL : seq R; Y1 : seq R; Y2 : seq R; YR : seq R;
  NL : int; N1 : int; N2 : int; NR : int;
  tL : R; t1 : R; t2 : R; tR : R;
  num_time : float64
}.

(** The locals bound by either branch of the scan before its [break]. *)
Record bracket : Type := Bracket {
  bYL : seq R; bY1 : seq R; bY2 : seq R; bYR : seq R;
  bNL : int; bN1 : int; bN2 : int; bNR : int;
  btL : R; bt1 : R; bt2 : R; btR : R
}.

(** The twelve assignments of a branch, in source order.  Only the
    subscripts of [t] can raise; [t[i-1]] wraps around when [i = 0]. *)
Definition bind_bracket (Y t : seq R) (q : nat) (i : nat) : result bracket :=
  let! t1 := getitem t i%:Z in
  let! t2 := getitem t (i%:Z + 1) in
  let Y1 := slice0 Y ((q * i)%:Z + 1) in
  let Y2 := slice0 Y ((q * i)%:Z + q%:Z + 1) in
  let N1 := i%:Z in
  let N2 := i%:Z + 1 in
  let NL := i%:Z - 1 in
  let! tL := getitem t (i%:Z - 1) in
  let YL := slice0 Y ((q * i)%:Z - q%:Z + 1) in
  let NR := i%:Z + 2 in
  let! tR := getitem t (i%:Z + 2) in
  let YR := slice0 Y ((q * i)%:Z + 2 * q%:Z + 1) in
  Ok (Bracket YL Y1 Y2 YR NL N1 N2 NR tL t1 t2 tR).

(** [Y[q*i] > target and Y[q*i+1] < target], with Python's short-circuit
    evaluation of [and]. *)
Definition crosses_down (Y : seq R) (q : nat) (target : R) (i : nat)
  : result bool :=
  let! a := item Y (q * i) in
  if target < a then (let! b := item Y (q * i + 1) in Ok (b < target))
  else Ok false.

(** [Y[q*i] < target and Y[q*i+1] > target]. *)
Definition crosses_up (Y : seq R) (q : nat) (target : R) (i : nat)
  : result bool :=
  let! a := item Y (q * i) in
  if a < target then (let! b := item Y (q * i + 1) in Ok (target < b))
  else Ok false.

(** The [for i in range(M-1)] loop with its two [break]s: [None] when the
    loop runs to its end without binding the locals. *)
Fixpoint scan (Y t : seq R) (q : nat) (target : R) (range : seq nat)
  : result (option bracket) :=
  match range with
  | [::] => Ok None
  | i :: range' =>
      let! down := crosses_down Y q target i in
      if down then (let! b := bind_bracket Y t q i in Ok (Some b))
      else
        let! up := crosses_up Y q target i in
        if up then (let! b := bind_bracket Y t q i in Ok (Some b))
        else scan Y t q target range'
  end.

Definition window_numtime (Y t : seq R) (q : nat) (target : R)
  : result window :=
  let M := size t in
  let! found := scan Y t q target (iota 0 M.-1) in
  match found with
  | None => Raise UnboundLocalError
  | Some b =>
      let! y1 := getitem (bY1 b) (-1) in
      let! y2 := getitem (bY2 b) (-1) in
      let s := truediv (target - y1) (y2 - y1) in
      let num_time :=
        float_add (float_mul s (Finite (bt2 b)))
                  (float_mul (float_sub (Finite 1) s) (Finite (bt1 b))) in
      Ok (Window (bYL b) (bY1 b) (bY2 b) (bYR b)
                 (bNL b) (bN1 b) (bN2 b) (bNR b)
                 (btL b) (bt1 b) (bt2 b) (btR b) num_time)
  end.

(** The returned list as a tuple. *)
Definition tuple_of_window (w : window) :=
  (YL w, Y1 w, Y2 w, YR w, (NL w, N1 w, N2 w, NR w),
   (tL w, t1 w, t2 w, tR w, option_of_float64 (num_time w))).

Definition window_of_tuple
  (p : seq R * seq R * seq R * seq R * (int * int * int * int)
       * (R * R * R * R * option R)) : window :=
  let: (yl, y1, y2, yr, (nl, n1, n2, nr), (l, a, b, r, nt)) := p in
  Window yl y1 y2 yr nl n1 n2 nr l a b r (float64_of_option nt).

(** ** solvers.py: [GaussQuad] and [solve_lin] *)

(** [np.polynomial.legendre.leggauss(deg)] is NumPy's, not this
    repository's: it is a parameter, returning the [deg] sample points
    paired with their weights (NumPy returns the two arrays [p] and [w],
    always of equal length; it raises [ValueError] for [deg < 1]). *)
Variable leggauss : nat -> seq (R * R).

Definition leggauss_call (deg : nat) : result (seq R * seq R) :=
  if deg == 0%N then Raise ValueError
  else Ok (unzip1 (leggauss deg), unzip2 (leggauss deg)).

(** [GaussQuad] is called with [degree >= 1] only ([5*q] in [solve_lin]). *)
Definition GaussQuad (initial final : R) (degree : nat)
    (expression : R -> R) : R :=
  let p := unzip1 (leggauss degree) in
  let w := unzip2 (leggauss degree) in
  let C := (final - initial) / 2 in
  let g := [seq C * pk + (initial + final) / 2 | pk <- p] in
  foldl (fun ans k => let term := expression g`_k in ans + C * w`_k * term)
        0 (iota 0 (size g)).

(** [np.linalg.solve(A, b)] in exact arithmetic: the solution of the
    square system when [A] is invertible, [LinAlgError] when it is
    singular. *)
Definition linalg_solve (n : nat) (A : 'M[R]_n) (b : 'cV[R]_n)
  : result 'cV[R]_n :=
  if A \in unitmx then Ok (invmx A *m b) else Raise LinAlgError.

(** The local matrix [a] of shape [q x (q+1)]: entry [(j, i)] is the
    quadrature of [TestLagr_j * (dLagr_i - F * Lagr_i)]. *)
Definition local_matrix (F : R -> R) (initial final : R) (q : nat)
  : 'M[R]_(q, 1 + q) :=
  \matrix_(j < q, i < 1 + q)
    GaussQuad initial final (5 * q)
      (fun x => TestLagr initial final q j x
                * (dLagr initial final q i x
                   - F x * Lagr initial final q i x)).

(** [y[lo : lo + len(s)] = s] on an array: the target slice is clipped to
    the array; a shorter target accepts only a one-element [s]
    (broadcast, nothing written when the target is empty). *)
Definition set_slice (y : seq R) (lo : nat) (s : seq R) : result (seq R) :=
  if (lo + size s <= size y)%N
  then Ok (take lo y ++ s ++ drop (lo + size s) y)
  else if (size s == 1%N) && (size y <= lo)%N then Ok y
  else Raise ValueError.

(** One pass of [for n in range(N)]. *)
Definition solve_lin_step (F : R -> R) (t : seq R) (q n : nat) (y : seq R)
  : result (seq R) :=
  let initial := t`_n in
  let final := t`_n.+1 in
  let a := local_matrix F initial final q in
  let A := rsubmx a in
  let! yn := item y (n * q) in
  let b := (- yn) *: lsubmx a in
  let! s := linalg_solve A b in
  set_slice y (n * q + 1) [seq s k ord0 | k <- enum 'I_q].

(** The length of [range(0, k)] for a Python integer [k]. *)
Definition range_len (k : int) : nat := if k is Posz n then n else 0.

Definition solve_lin (y0 : R) (F : R -> R) (t : seq R) (q : nat)
  : result (seq R) :=
  let N := (size t)%:Z - 1 in
  let y := nseq (range_len (N * q%:Z + 1)) 0 in
  let! y := (if y is _ :: y' then Ok (y0 :: y') else Raise IndexError) in
  let! pw := leggauss_call (5 * q) in
  forM (iota 0 (range_len N)) (solve_lin_step F t q) y.

(** ** solvers.py: the root-finding steps *)

(** One step of the secant method towards the level [r]; nothing in it
    can raise. *)
Definition sec_method_step (y0 y1 x0 x1 r : R) : float64 :=
  let Y0 := y0 - r in
  let Y1 := y1 - r in
  let x2 := truediv (x0 * Y1 - x1 * Y0) (Y1 - Y0) in
  x2.

(** One step of inverse quadratic interpolation towards the level [r]:
    the sum of three quotients. *)
Definition inv_quad_step (y0 y1 y2 x0 x1 x2 r : R) : float64 :=
  let: (Y0, Y1, Y2) := (y0 - r, y1 - r, y2 - r) in
  let x3 :=
    float_add
      (float_add (truediv (x0 * Y1 * Y2) ((Y0 - Y1) * (Y0 - Y2)))
                 (truediv (x1 * Y0 * Y2) ((Y1 - Y0) * (Y1 - Y2))))
      (truediv (x2 * Y1 * Y0) ((Y2 - Y1) * (Y2 - Y0))) in
  x3.

(** ** NSQoI_and_error_functions.py: [get_err_lin] *)

(** [for i in range(n): if test(i): ...; break]: the index at which the
    loop breaks, if it does. *)
Fixpoint first_hit (test : nat -> bool) (range : seq nat) : option nat :=
  match range with
  | [::] => None
  | i :: range' => if test i then Some i else first_hit test range'
  end.

(** Lines 18-26: the grid [t], or [None] when no branch binds it. *)
Definition reconcile (ty tphi : seq R) : result (option (seq R)) :=
  let! ylast := getitem ty (-1) in
  let! plast := getitem tphi (-1) in
  if ylast == plast then Ok (Some ty)
  else
    match first_hit (fun i => plast < ty`_i) (iota 0 (size ty)) with
    | Some i => let TY := slice0 ty i%:Z in Ok (Some (TY ++ [:: plast]))
    | None => Ok None
    end.

(** The quadrature of the weighted residual over subinterval [n] of [t],
    added to [e]. *)
Definition local_error (Y phi : seq R) (F : R -> R) (q q2 : nat)
    (ty tphi : seq R) (p w : seq R) (t : seq R) (n : nat) (e : R)
  : result R :=
  let C := (t`_n.+1 - t`_n) / 2 in
  let g := [seq C * pk + (t`_n + t`_n.+1) / 2 | pk <- p] in
  forM (iota 0 (size g))
       (fun k e =>
          let! DYL := evalderiv Y ty q g`_k in
          let! YL := evalfunc Y ty q g`_k in
          let! PL := evalfunc phi tphi q2 g`_k in
          Ok (e + C * w`_k * PL * (- DYL + F g`_k * YL)))
       e.

Definition get_err_lin (Y phi : seq R) (F : R -> R) (q q2 : nat)
    (ty tphi : seq R) : result (R * seq R * seq R) :=
  let! grid := reconcile ty tphi in
  let! pw := leggauss_call (5 * q) in
  let: (p, w) := pw in
  let! t := (if grid is Some t then Ok t else Raise UnboundLocalError) in
  let N := (size t).-1 in
  let Eloc := nseq N 0 in
  let! Eloc :=
    forM (iota 0 N)
         (fun n Eloc =>
            let! e := local_error Y phi F q q2 ty tphi p w t n Eloc`_n in
            Ok (set_nth 0 Eloc n e))
         Eloc in
  let E := foldl +%R 0 Eloc in
  Ok (E, Eloc, t).

End Core.

(** * Vocabulary of the properties *)

Section Vocabulary.

Variable R : realFieldType.
Implicit Types (Y t ty tphi : seq R) (q i j k n : nat) (x target a b : R).
Implicit Types (p : {poly R}) (I : seq R).

(** ** Meshes and evaluators *)

(** A mesh is a strictly increasing sequence of nodes. *)
Definition mesh t : bool := sorted <%R t.

(** [x] lies in subinterval [i] of [t], as both evaluators test it. *)
Definition inside t i x : bool := (t`_i <= x) && (x < t`_i.+1).

(** [x] lies outside the span [[t[0], t[-1]]] of the mesh. *)
Definition outside_span t x : bool := (x < t`_0) || (last 0 t < x).

(** Both evaluators report a failure outside the span. *)
Definition checks_domain Y t q x : Prop :=
  outside_span t x ->
  ~~ is_ok (evalfunc Y t q x) /\ ~~ is_ok (evalderiv Y t q x).

(** The value the derivative of the last subinterval's polynomial takes
    at the final node: the sum over [j] of
    [Y[q*(N-1)+j] * dLagr(t[-2], t[-1], q, j, t[-1])]. *)
Definition last_subinterval_derivative Y t q : R :=
  let N := (size t).-1 in
  foldl (fun d j => d + Y`_(q * N.-1 + j) * dLagr t`_N.-1 t`_N q j t`_N)
        0 (iota 0 q.+1).

(** The grid the reconciliation is said to build: the forward mesh when
    the final nodes agree, else its longest prefix of nodes less than the
    adjoint's final node, with that node appended. *)
Definition prefix_below ty tphi : seq R :=
  let T := last 0 tphi in
  if last 0 ty == T then ty
  else take (find (fun v => ~~ (v < T)) ty) ty ++ [:: T].

(** ** The threshold-crossing locator *)

(** Subinterval [i] straddles [target]: the disjunction of the two tests
    of the scan. *)
Definition straddles Y q target i : bool :=
  ((target < Y`_(q * i)) && (Y`_(q * i + 1) < target))
  || ((Y`_(q * i) < target) && (target < Y`_(q * i + 1))).

(** Both samples tested at subinterval [i] exist. *)
Definition readable Y q i : bool := (q * i + 1 < size Y)%N.

(** The scan reads subinterval [k] and moves on. *)
Definition quiet Y q target k : bool :=
  readable Y q k && ~~ straddles Y q target k.

(** [i] is the first straddling subinterval, the one the scan breaks at. *)
Definition first_straddle Y q target i : bool :=
  [&& all (quiet Y q target) (iota 0 i), readable Y q i
    & straddles Y q target i].

(** No subinterval of the mesh straddles: the scan runs to its end. *)
Definition no_straddle Y t q target : bool :=
  all (quiet Y q target) (iota 0 (size t).-1).

(** The values the source calls [Y1[-1]] and [Y2[-1]] at subinterval [i]. *)
Definition Y1_last Y q i : R := last 0 (slice0 Y ((q * i)%:Z + 1)).
Definition Y2_last Y q i : R := last 0 (slice0 Y ((q * i)%:Z + q%:Z + 1)).

(** The twelve locals at subinterval [i]: the left neighbour [t[i-1]] is
    the last node when [i = 0]. *)
Definition bracket_at Y t q i : bracket R :=
  Bracket (slice0 Y ((q * i)%:Z - q%:Z + 1))
          (slice0 Y ((q * i)%:Z + 1))
          (slice0 Y ((q * i)%:Z + q%:Z + 1))
          (slice0 Y ((q * i)%:Z + 2 * q%:Z + 1))
          (i%:Z - 1) i%:Z (i%:Z + 1) (i%:Z + 2)
          (if i is i'.+1 then t`_i' else last 0 t) t`_i t`_i.+1 t`_i.+2.

(** The crossing time interpolated at subinterval [i]: not finite when
    the two interpolation values coincide. *)
Definition crossing Y t q target i : float64 R :=
  let y1 := Y1_last Y q i in
  let y2 := Y2_last Y q i in
  if y2 - y1 == 0 then NotFinite R
  else
    let s := (target - y1) / (y2 - y1) in
    Finite (s * t`_i.+1 + (1 - s) * t`_i).

(** What the statements after the loop make of a break at [i]. *)
Definition window_at Y t q target i : result (window R) :=
  if (i.+2 < size t)%N then
    let b := bracket_at Y t q i in
    Ok (Window (bYL b) (bY1 b) (bY2 b) (bYR b)
               (bNL b) (bN1 b) (bN2 b) (bNR b)
               (btL b) (bt1 b) (bt2 b) (btR b)
               (crossing Y t q target i))
  else Raise IndexError.

(** The float is a number, and that number is less than [x]. *)
Definition float_lt (u : float64 R) x : bool :=
  if u is Finite v then v < x else false.

(** The exceptions Python raises by itself at an unguarded statement. *)
Definition crash (e : exn) : bool :=
  match e with
  | IndexError | UnboundLocalError | ZeroDivisionError => true
  | LinAlgError | ValueError => false
  end.

(** The call reports a condition it has detected: an error result that is
    not one of the crashes. *)
Definition reported (A : Type) (c : result A) : bool :=
  if c is Raise e then ~~ crash e else false.

(** The boundary conditions of the locator: no straddling subinterval, or
    the first one is the first or the last subinterval of the mesh, or
    the two interpolation values coincide. *)
Definition boundary_case Y t q target : bool :=
  no_straddle Y t q target
  || has (fun i => first_straddle Y q target i
                   && [|| i == 0%N, i.+2 == size t
                        | Y2_last Y q i == Y1_last Y q i])
         (iota 0 (size t).-1).

(** The locator guards its boundary conditions. *)
Definition guards_boundary Y t q target : Prop :=
  boundary_case Y t q target -> reported (window_numtime Y t q target).

(** The locator breaks at the first subinterval and wraps around. *)
Definition wraps_at_first Y t q target : Prop :=
  (1 < size t)%N -> first_straddle Y q target 0 ->
  exists2 w, window_numtime Y t q target = Ok w
           & NL w = -1 /\ tL w = last 0 t.

(** ** Quadrature *)

(** The exact integral over [[a, b]] of the polynomial with coefficients
    [p`_i]: the sum of [p`_i * (b^(i+1) - a^(i+1)) / (i+1)]. *)
Definition integral p a b : R :=
  \sum_(i < size p) p`_i * (b ^+ i.+1 - a ^+ i.+1) / i.+1%:R.

(** The primitive of [p] that vanishes at 0. *)
Definition prim p : {poly R} :=
  \poly_(i < (size p).+1) (if i is k.+1 then p`_k / k.+1%:R else 0).

(** A rule of [n] node and weight pairs, exact on the reference interval
    [[-1, 1]] for the polynomials of degree at most [2*n - 1]: what
    [leggauss(n)] computes. *)
Definition exact_rule (rule : seq (R * R)) n : Prop :=
  size rule = n
  /\ forall p, (size p <= 2 * n)%N ->
       \sum_(pw <- rule) pw.2 * p.[pw.1] = integral p (-1) 1.

(** A rule of [n] pairs with pairwise distinct nodes and positive
    weights, as every Gauss-Legendre rule is. *)
Definition positive_rule (rule : seq (R * R)) n : bool :=
  [&& size rule == n, uniq (unzip1 rule) & all (fun w => 0 < w) (unzip2 rule)].

(** The quadrature of a product of polynomials. *)
Definition dot (leggauss : nat -> seq (R * R)) a b n (u v : {poly R})
  : R :=
  GaussQuad leggauss a b n (fun x => u.[x] * v.[x]).

(** ** The bases as polynomials *)

(** The factor of the product loop for index [k], as a polynomial. *)
Definition node_poly I j k : {poly R} :=
  (I`_j - I`_k)^-1 *: ('X - (I`_k)%:P).

(** The polynomial the product loop of [Lagr] evaluates: the [j]-th
    Lagrange polynomial on the [n+1] equally spaced nodes of [[a, b]]. *)
Definition Lagr_poly a b n j : {poly R} :=
  \prod_(k <- iota 0 n.+1 | k != j) node_poly (linspace a b n.+1) j k.

(** ** The solver *)

(** The vector after [n] passes on a mesh of [N] subintervals: the
    initial value up to index [n*q], zeros beyond. *)
Definition filled (y0 : R) (N q n : nat) : seq R :=
  nseq (n * q + 1) y0 ++ nseq ((N - n) * q) 0.

(** The local system of subinterval [n] can be solved. *)
Definition solvable (leggauss : nat -> seq (R * R)) (F : R -> R) t q n
  : bool :=
  rsubmx (local_matrix leggauss F t`_n t`_n.+1 q) \in unitmx.

(** The [q] values one pass writes from the vector [y]: the solution of
    the local system of subinterval [n]. *)
Definition local_solution (leggauss : nat -> seq (R * R)) (F : R -> R) t q n
    (y : seq R) : seq R :=
  let a := local_matrix leggauss F t`_n t`_n.+1 q in
  [seq (invmx (rsubmx a) *m (- y`_(n * q) *: lsubmx a)) u ord0
  | u <- enum 'I_q].

(** The local equations of subinterval [n] hold for the entries of [y]:
    row [j] of the local matrix applied to the [q+1] entries of the
    subinterval gives 0. *)
Definition balanced (leggauss : nat -> seq (R * R)) (F : R -> R) t q n
    (y : seq R) : Prop :=
  forall j : 'I_q,
    \sum_(i < 1 + q) local_matrix leggauss F t`_n t`_n.+1 q j i
                     * y`_(n * q + i) = 0.

(** A rule that integrates the affine functions on [[-1, 1]] exactly:
    its weights add up to 2 and its weighted nodes to 0, as for every
    Gauss-Legendre rule. *)
Definition affine_rule (rule : seq (R * R)) : bool :=
  (\sum_(pw <- rule) pw.2 == 2) && (\sum_(pw <- rule) pw.2 * pw.1 == 0).

(** ** Nodal samples *)

(** [Y] holds the values of the polynomial [p] at the [q+1] trial nodes
    of every subinterval of [t]. *)
Definition samples p Y t q : Prop :=
  size Y = ((size t).-1 * q + 1)%N
  /\ forall i j, (i < (size t).-1)%N -> (j <= q)%N ->
       Y`_(q * i + j) = p.[(linspace t`_i t`_i.+1 q.+1)`_j].

End Vocabulary.

(** ** Rational instances *)

(** The example trajectory of the specification. *)
Definition Y_example : seq rat :=
  [:: 5%:Q; 4%:Q; 3%:Q; 2%:Q; 1%:Q; 0%:Q; (-1)%:Q].
Definition t_example : seq rat := [:: 0%:Q; 1%:Q; 2%:Q; 3%:Q; 4%:Q; 5%:Q].
Definition target_example : rat := 3%:Q / 2%:Q.

(** The composite midpoint rule on [[-1, 1]]: [n] distinct nodes with
    positive weights; for [n = 1] it is the Gauss-Legendre rule. *)
Definition midpoint_rule (n : nat) : seq (rat * rat) :=
  [seq ((2 * k + 1)%:R / n%:R - 1, 2 / n%:R) | k <- iota 0 n].

(** A descending trajectory on four nodes, and the window the locator
    returns on it for the threshold 3/2. *)
Definition Y_descent : seq rat := [:: 3%:Q; 2%:Q; 1%:Q; 0%:Q].
Definition t_descent : seq rat := [:: 0%:Q; 1%:Q; 2%:Q; 3%:Q].
Definition window_descent : window rat :=
  Window [:: 3%:Q] [:: 3%:Q; 2%:Q] [:: 3%:Q; 2%:Q; 1%:Q]
         [:: 3%:Q; 2%:Q; 1%:Q; 0%:Q]
         0 1 2 3 0%:Q 1%:Q 2%:Q 3%:Q (Finite (3%:Q / 2%:Q)).

(** * Properties *)

(** ** Decidable equality of results *)

Lemma exn_codeK : cancel exn_code exn_of_code.
Proof. by case. Qed.

HB.instance Definition _ := Equality.copy exn (can_type exn_codeK).

Lemma sum_of_resultK (A : Type) : cancel (@sum_of_result A) (@result_of_sum A).
Proof. by case. Qed.

HB.instance Definition _ (A : eqType) :=
  Equality.copy (result A) (can_type (@sum_of_resultK A)).

Lemma option_of_float64K (R : realFieldType) :
  cancel (@option_of_float64 R) (@float64_of_option R).
Proof. by case. Qed.

HB.instance Definition _ (R : realFieldType) :=
  Equality.copy (float64 R) (can_type (@option_of_float64K R)).

Lemma tuple_of_windowK (R : realFieldType) :
  cancel (@tuple_of_window R) (@window_of_tuple R).
Proof. by case=> ? ? ? ? ? ? ? ? ? ? ? ? []. Qed.

HB.instance Definition _ (R : realFieldType) :=
  Equality.copy (window R) (can_type (@tuple_of_windowK R)).
(** ** Sequences and loops *)

Section SeqLemmas.

Variable A : Type.
Implicit Types (s : seq A) (n : nat).

Lemma item_nth (x0 : A) s n : (n < size s)%N -> item s n = Ok (nth x0 s n).
Proof. by elim: s n => [|x s IH] [|n] //= /IH. Qed.

Lemma item_oversize s n : (size s <= n)%N -> item s n = Raise IndexError.
Proof. by elim: s n => [|x s IH] [|n] //= /IH. Qed.

Lemma item_ok s n : is_ok (item s n) = (n < size s)%N.
Proof. by elim: s n => [|x s IH] [|n] //=. Qed.

Lemma getitem_last (x0 : A) s :
  (0 < size s)%N -> getitem s (-1) = Ok (last x0 s).
Proof.
move=> s_gt0; rewrite /getitem /= s_gt0 (item_nth x0) ?subn1 ?ltn_predL //.
by rewrite nth_last.
Qed.

Lemma last_take (x0 : A) s n :
  (0 < n <= size s)%N -> last x0 (take n s) = nth x0 s n.-1.
Proof.
case/andP=> n_gt0 n_s.
by rewrite -nth_last size_takel // nth_take // ltn_predL.
Qed.

Lemma getitem_nil (k : int) : getitem ([::] : seq A) k = Raise IndexError.
Proof. by case: k. Qed.

End SeqLemmas.

Section LoopLemmas.

Variables (A : eqType) (S : Type).
Implicit Types (xs : seq A) (body : A -> S -> result S) (s : S).

Lemma forM_cat xs ys body s :
  forM (xs ++ ys) body s = (let! s' := forM xs body s in forM ys body s').
Proof.
elim: xs s => [|x xs IH] s //=.
by case: (body x s) => [s'|e] //=.
Qed.

(** A loop none of whose passes changes the state returns it untouched. *)
Lemma forM_skip xs body s :
  {in xs, forall x, body x s = Ok s} -> forM xs body s = Ok s.
Proof.
elim: xs => [|x xs IH] //= skip.
rewrite skip ?mem_head //=; apply: IH => y y_xs.
by apply: skip; rewrite in_cons y_xs orbT.
Qed.

Lemma forM_ext xs body1 body2 s :
  {in xs, forall x, body1 x =1 body2 x} -> forM xs body1 s = forM xs body2 s.
Proof.
elim: xs s => [|x xs IH] s //= ext.
rewrite ext ?mem_head //; case: (body2 x s) => //= s'.
by apply: IH => y y_xs; apply: ext; rewrite in_cons y_xs orbT.
Qed.

(** A property every pass preserves holds of the state the loop returns. *)
Lemma forM_invariant (P : S -> Prop) xs body s s' :
  (forall x s1 s2, P s1 -> body x s1 = Ok s2 -> P s2) ->
  P s -> forM xs body s = Ok s' -> P s'.
Proof.
move=> P_body; elim: xs s => [|x xs IH] s /= Ps; first by case=> <-.
by case body_x: (body x s) => [s1|e] //=; apply: IH; apply: P_body body_x.
Qed.

(** A loop every pass of which returns, returns. *)
Lemma forM_total (P : S -> Prop) xs body s :
  {in xs, forall x s1, P s1 -> exists2 s2, body x s1 = Ok s2 & P s2} ->
  P s -> exists2 s', forM xs body s = Ok s' & P s'.
Proof.
elim: xs s => [|x xs IH] s /= P_body Ps; first by exists s.
have [|s1 -> Ps1] /= := P_body x _ s Ps; first exact: mem_head.
by apply: IH => // z z_xs; apply: P_body; rewrite in_cons z_xs orbT.
Qed.

End LoopLemmas.

(** ** The piecewise evaluators *)

Section Evaluators.

Variable R : realFieldType.
Implicit Types (Y t : seq R) (q i j : nat) (x ans : R).


Lemma mesh_ltn t i j :
  mesh t -> (i < j)%N -> (j < size t)%N -> t`_i < t`_j.
Proof.
move=> t_mesh i_j j_t.
by rewrite (lt_sorted_ltn_nth 0 t_mesh) ?inE // (ltn_trans i_j).
Qed.

Lemma mesh_leq t i j :
  mesh t -> (i <= j)%N -> (j < size t)%N -> t`_i <= t`_j.
Proof.
move=> t_mesh i_j j_t.
by rewrite (lt_sorted_leq_nth 0 t_mesh) ?inE // (leq_ltn_trans i_j).
Qed.


Lemma inside_before t i x :
  mesh t -> (i < (size t).-1)%N -> x < t`_0 -> inside t i x = false.
Proof.
move=> t_mesh i_t x_lt; rewrite /inside leNgt (lt_le_trans x_lt) //.
by apply: mesh_leq => //; apply: leq_trans i_t (leq_pred _).
Qed.

Lemma inside_after t i x :
  mesh t -> (i < (size t).-1)%N -> last 0 t <= x -> inside t i x = false.
Proof.
move=> t_mesh i_t x_ge; rewrite /inside andbC ltNge (le_trans _ x_ge) //.
by rewrite -nth_last; apply: mesh_leq => //; case: (size t) i_t.
Qed.

(** Outside the half-open span [[t[0], t[-1])] no subinterval matches and
    the accumulator comes back as it went in. *)
Lemma piecewise_outside basis Y t q x ans :
  mesh t -> (x < t`_0) || (last 0 t <= x) ->
  piecewise basis Y t q x ans = Ok ans.
Proof.
move=> t_mesh out; apply: forM_skip => i; rewrite mem_iota /= add0n => i_t.
have ->// : (t`_i <= x) && (x < t`_i.+1) = false.
case/orP: out => [/(inside_before t_mesh i_t)|/(inside_after t_mesh i_t)] //.
Qed.

Lemma evalderiv_outside Y t q x :
  mesh t -> (x < t`_0) || (last 0 t <= x) -> evalderiv Y t q x = Ok 0.
Proof. exact: piecewise_outside. Qed.

Lemma evalfunc_outside Y t q x :
  mesh t -> (0 < size t)%N -> (x < t`_0) || (last 0 t < x) ->
  evalfunc Y t q x = Ok 0.
Proof.
move=> t_mesh t_gt0 out; rewrite /evalfunc (getitem_last 0) //=.
have x_ne : (x == last 0 t) = false.
  case/orP: out => [x_lt|x_gt]; last by rewrite gt_eqF.
  rewrite lt_eqF // (lt_le_trans x_lt) // -nth_last.
  by apply: mesh_leq => //; rewrite ltn_predL.
rewrite x_ne; apply: piecewise_outside => //.
by case/orP: out => [->//|/ltW->]; rewrite orbT.
Qed.

End Evaluators.

(** ** The threshold-crossing locator *)

Section Locator.

Variable R : realFieldType.
Implicit Types (Y t : seq R) (q i : nat) (target : R).







Lemma crosses_downE Y q target i :
  readable Y q i ->
  crosses_down Y q target i
  = Ok ((target < Y`_(q * i)) && (Y`_(q * i + 1) < target)).
Proof.
move=> i_Y; have i_Y' : (q * i < size Y)%N by rewrite ltnW // -addn1.
rewrite /crosses_down (item_nth 0) //=.
by case: ifP => //= _; rewrite (item_nth 0).
Qed.

Lemma crosses_upE Y q target i :
  readable Y q i ->
  crosses_up Y q target i
  = Ok ((Y`_(q * i) < target) && (target < Y`_(q * i + 1))).
Proof.
move=> i_Y; have i_Y' : (q * i < size Y)%N by rewrite ltnW // -addn1.
rewrite /crosses_up (item_nth 0) //=.
by case: ifP => //= _; rewrite (item_nth 0).
Qed.

(** The scan passes over quiet subintervals. *)
Lemma scan_quiet Y t q target (r1 r2 : seq nat) :
  all (quiet Y q target) r1 ->
  scan Y t q target (r1 ++ r2) = scan Y t q target r2.
Proof.
elim: r1 => [|k r1 IH] //= /andP[/andP[k_Y k_quiet] /IH->].
rewrite crosses_downE // crosses_upE //=.
by move: k_quiet; rewrite /straddles negb_or => /andP[/negPf-> /negPf->].
Qed.

(** It breaks at a straddling one and binds the locals there. *)
Lemma scan_break Y t q target i (r : seq nat) :
  readable Y q i -> straddles Y q target i ->
  scan Y t q target (i :: r)
  = (let! b := bind_bracket Y t q i in Ok (Some b)).
Proof.
move=> i_Y i_hit /=; rewrite crosses_downE // crosses_upE //=.
by case: ifP i_hit => //= down; rewrite /straddles down /= => ->.
Qed.


(** Binding them fails exactly when the right neighbour [t[i+2]] does not
    exist. *)
Lemma bind_bracketE Y t q i :
  (i.+1 < size t)%N ->
  bind_bracket Y t q i
  = if (i.+2 < size t)%N then Ok (bracket_at Y t q i) else Raise IndexError.
Proof.
move=> i_t; rewrite /bind_bracket.
have -> : getitem t i%:Z = Ok t`_i by rewrite /= (item_nth 0) // ltnW.
have -> : getitem t (i%:Z + 1) = Ok t`_i.+1.
  by rewrite -(PoszD i 1) addn1 /= (item_nth 0).
have -> : getitem t (i%:Z - 1)
          = Ok (if i is i'.+1 then t`_i' else last 0 t).
  case: i i_t => [|i] i_t; first by rewrite (getitem_last 0) // (ltnW i_t).
  by rewrite intS addrC addKr /= (item_nth 0) // (ltn_trans _ i_t) // ltnW.
have -> : getitem t (i%:Z + 2)
          = if (i.+2 < size t)%N then Ok t`_i.+2 else Raise IndexError.
  rewrite -(PoszD i 2) addn2 /=; case: ltnP => [i_lt|i_ge].
    by rewrite (item_nth 0).
  by rewrite item_oversize.
by case: ifP.
Qed.


Lemma last_slice0 Y (n : nat) :
  (0 < size Y)%N ->
  getitem (slice0 Y (n%:Z + 1)) (-1) = Ok (last 0 (slice0 Y (n%:Z + 1))).
Proof.
move=> Y_gt0; apply: getitem_last.
by rewrite -(PoszD n 1) /= size_take addn1; case: ifP.
Qed.

Lemma window_numtime_break Y t q target i :
  (i.+1 < size t)%N -> first_straddle Y q target i ->
  window_numtime Y t q target = window_at Y t q target i.
Proof.
move=> i_t /and3P[quiet_i i_Y i_hit]; rewrite /window_numtime /window_at.
have -> : iota 0 (size t).-1 = iota 0 i ++ i :: iota i.+1 ((size t).-1 - i.+1).
  have i_lt : (i < (size t).-1)%N by rewrite ltn_predRL.
  by rewrite -[in LHS](subnKC (ltnW i_lt)) iotaD add0n -(subnSK i_lt).
have Y_gt0 : (0 < size Y)%N by apply: leq_ltn_trans i_Y.
rewrite scan_quiet // scan_break // bind_bracketE //; case: ifP => // _.
rewrite /bind /bracket_at /bY1 /bY2 last_slice0 //.
rewrite -(PoszD (q * i) q) last_slice0 // PoszD.
by rewrite /crossing /truediv /Y1_last /Y2_last; case: ifP.
Qed.

Lemma window_numtime_unbound Y t q target :
  no_straddle Y t q target ->
  window_numtime Y t q target = Raise UnboundLocalError.
Proof.
move=> quiet_t; rewrite /window_numtime.
by rewrite -[iota _ _]cats0 scan_quiet.
Qed.

End Locator.

(** ** Claims about the locator *)

Section LocatorClaims.

Variable R : realFieldType.
Implicit Types (Y t : seq R) (q i : nat) (target : R).






(** C3 (as the code has it): the locator has no guard.  With no straddling
    subinterval the locals stay unbound and the first use of [Y1] raises
    [UnboundLocalError]; a break at the last subinterval raises
    [IndexError] at [t[i+2]]; a break at the first subinterval of a mesh
    of at least three nodes raises nothing and returns the wrapped-around
    left neighbour; equal interpolation values raise nothing either: the
    division by zero is NumPy's, and the window is returned with a
    crossing time that is not finite. *)
Theorem window_numtime_unguarded Y t q target :
  [/\ no_straddle Y t q target ->
      window_numtime Y t q target = Raise UnboundLocalError,
      forall i, first_straddle Y q target i -> i.+2 = size t ->
        window_numtime Y t q target = Raise IndexError,
      first_straddle Y q target 0 -> (2 < size t)%N ->
      Y2_last Y q 0 != Y1_last Y q 0 ->
        exists2 w, window_numtime Y t q target = Ok w
                 & NL w = -1 /\ tL w = last 0 t
    & forall i, first_straddle Y q target i -> (i.+2 < size t)%N ->
      Y2_last Y q i = Y1_last Y q i ->
        exists2 w, window_numtime Y t q target = Ok w
                 & num_time w = NotFinite R].
Proof.
split=> [|i i_first i_last|first0 t_gt2 Y_ne|i i_first i_t Y_eq].
- exact: window_numtime_unbound.
- have i_t : (i.+1 < size t)%N by rewrite -i_last.
  by rewrite (window_numtime_break i_t) // /window_at -i_last ltnn.
- rewrite (@window_numtime_break _ _ _ _ _ 0%N) ?(ltnW t_gt2) //.
  rewrite /window_at t_gt2.
  by eexists; first by reflexivity.
- rewrite (@window_numtime_break _ _ _ _ _ i) ?(ltnW i_t) //.
  rewrite /window_at i_t; eexists; first by reflexivity.
  by rewrite /= /crossing Y_eq subrr eqxx.
Qed.

(** C10 (as the code has it): when the scan breaks at the first
    subinterval of a strictly increasing mesh of at least three nodes and
    the interpolation values differ, nothing is raised: the left
    neighbour wraps around to the last node, [NL = -1], so that [tL] lies
    after [t2] and, for degree 1, after the crossing time. *)
Theorem window_numtime_wraps Y t q target :
  mesh t -> (2 < size t)%N -> first_straddle Y q target 0 ->
  Y2_last Y q 0 != Y1_last Y q 0 ->
  exists2 w, window_numtime Y t q target = Ok w
           & [/\ NL w = -1, tL w = last 0 t, t2 w < tL w
               & (q == 1%N) ==> float_lt (num_time w) (tL w)].
Proof.
move=> t_mesh t_gt2 first0 Y_ne.
rewrite (@window_numtime_break _ _ _ _ _ 0%N) ?(ltnW t_gt2) //.
rewrite /window_at t_gt2.
eexists; first by reflexivity.
have t1_last : t`_1 < last 0 t.
  rewrite -nth_last mesh_ltn // ?ltn_predL ?ltn_predRL //.
  exact: ltnW (ltnW t_gt2).
split=> /=; [by rewrite sub0r | by [] | by [] |].
rewrite /crossing subr_eq0 (negPf Y_ne) /=.
apply/implyP=> /eqP q1; apply: (lt_trans _ t1_last).
move: first0 Y_ne; rewrite /first_straddle /= /readable /straddles.
rewrite /Y1_last /Y2_last q1 !mul1n /= => /andP[Y_gt1 hit].
rewrite !last_take ?Y_gt1 ?(ltnW Y_gt1) //=.
move=> Y_ne; set s := _ / _.
have t01 : t`_0 < t`_1 by rewrite mesh_ltn // (ltnW t_gt2).
have s_lt1 : s < 1.
  rewrite /s; case/orP: hit => /andP[h0 h1].
    rewrite -[X in X / _]opprB -[X in _ / X]opprB divrNN.
    by rewrite ltr_pdivrMr ?mul1r ?subr_gt0 ?(lt_trans h1) // ltrD2l ltrN2.
  by rewrite ltr_pdivrMr ?mul1r ?subr_gt0 ?(lt_trans h0) // ltrD2r.
rewrite -subr_gt0.
have -> : t`_1 - (s * t`_1 + (1 - s) * t`_0) = (1 - s) * (t`_1 - t`_0).
  by ring.
by rewrite mulr_gt0 ?subr_gt0.
Qed.

End LocatorClaims.

(** ** Claims about the evaluators and the reconciled grid *)

Section EvaluatorClaims.

Variable R : realFieldType.
Implicit Types (Y t ty tphi : seq R) (q i : nat) (x : R).



(** C4 (as the code has it): outside the span of a mesh no subinterval
    matches, no domain check is made, and both evaluators return the
    initial value 0 of their accumulator. *)
Theorem evaluators_zero_outside_span Y t q x :
  mesh t -> (0 < size t)%N -> outside_span t x ->
  evalfunc Y t q x = Ok 0 /\ evalderiv Y t q x = Ok 0.
Proof.
move=> t_mesh t_gt0 out; split; first exact: evalfunc_outside.
apply: evalderiv_outside => //.
by case/orP: out => [->//|/ltW->]; rewrite orbT.
Qed.



(** On a strictly increasing mesh the final node belongs to no half-open
    subinterval, so the derivative evaluator returns 0 there. *)
Lemma evalderiv_final_node Y t q :
  mesh t -> evalderiv Y t q (last 0 t) = Ok 0.
Proof. by move=> t_mesh; apply: evalderiv_outside; rewrite ?lexx ?orbT. Qed.

(** The grid of [get_err_lin] is the one [reconcile] binds. *)
Lemma get_err_lin_grid (leggauss : nat -> seq (R * R)) Y (phi : seq R)
    (F : R -> R) q (q2 : nat) ty tphi (E : R) (Eloc t : seq R) :
  get_err_lin leggauss Y phi F q q2 ty tphi = Ok (E, Eloc, t) ->
  reconcile ty tphi = Ok (Some t).
Proof.
rewrite /get_err_lin; case: reconcile => [[t'|]|e] //=;
  case: leggauss_call => [[p w]|e] //=.
by case: forM => //= Eloc' [_ _ ->].
Qed.

End EvaluatorClaims.

(** ** The claims on concrete rational inputs *)

Section Examples.


(** C1: on the example the scan breaks at the subinterval with endpoint
    values 2 and 1, that is [t1 = 3] and [t2 = 4]; the fraction is
    [s = (1.5 - 2) / (1 - 2) = 0.5] and the returned crossing time is
    [s * t2 + (1 - s) * t1 = 3.5], between the two mesh times. *)
Theorem window_numtime_example :
  exists2 w, window_numtime Y_example t_example 1 target_example = Ok w
  & let s := (target_example - last 0 (Y1 w))
             / (last 0 (Y2 w) - last 0 (Y1 w)) in
    [/\ last 0 (Y1 w) = 2%:Q /\ last 0 (Y2 w) = 1%:Q,
        t1 w = 3%:Q /\ t2 w = 4%:Q,
        s = 1%:Q / 2%:Q,
        num_time w = Finite (s * t2 w + (1 - s) * t1 w)
        /\ num_time w = Finite (7%:Q / 2%:Q)
      & exists2 x, num_time w = Finite x & t1 w < x < t2 w].
Proof.
exists (Window (take 3 Y_example) (take 4 Y_example) (take 5 Y_example)
               (take 6 Y_example) 2 3 4 5 (2%:Q) (3%:Q) (4%:Q) (5%:Q)
               (Finite (7%:Q / 2%:Q))).
  by apply/eqP; vm_compute.
split; try split; try (by apply/eqP; vm_compute).
by exists (7%:Q / 2%:Q); [|vm_compute].
Qed.


(** C3, as stated, fails where the scan breaks at the first subinterval:
    the call returns a result and reports nothing. *)
Lemma guards_boundary_counterexample :
  ~ guards_boundary [:: 2%:Q; 1%:Q; 0%:Q] [:: 0%:Q; 1%:Q; 2%:Q] 1
                    (3%:Q / 2%:Q).
Proof.
rewrite /guards_boundary.
have -> : boundary_case [:: 2%:Q; 1%:Q; 0%:Q] [:: 0%:Q; 1%:Q; 2%:Q] 1
                        (3%:Q / 2%:Q) = true by vm_compute.
have -> : reported (window_numtime [:: 2%:Q; 1%:Q; 0%:Q]
                      [:: 0%:Q; 1%:Q; 2%:Q] 1 (3%:Q / 2%:Q)) = false
  by vm_compute.
by move=> /(_ isT).
Qed.

Lemma window_numtime_unguarded_witness :
  [/\ window_numtime [:: 5%:Q; 4%:Q; 3%:Q] [:: 0%:Q; 1%:Q; 2%:Q] 1 1%:Q
      = Raise UnboundLocalError,
      window_numtime [:: 5%:Q; 4%:Q; 1%:Q] [:: 0%:Q; 1%:Q; 2%:Q] 1 2%:Q
      = Raise IndexError,
      exists2 w, window_numtime [:: 2%:Q; 1%:Q; 0%:Q]
                   [:: 0%:Q; 1%:Q; 2%:Q] 1 (3%:Q / 2%:Q) = Ok w
               & NL w = -1 /\ tL w = 2%:Q
    & exists2 w, window_numtime [:: 2%:Q; 1%:Q; 2%:Q; 1%:Q; 0%:Q]
                   [:: 0%:Q; 1%:Q; 2%:Q] 2 (3%:Q / 2%:Q) = Ok w
               & num_time w = NotFinite rat].
Proof.
split.
- have [unbound _ _ _] :=
    window_numtime_unguarded [:: 5%:Q; 4%:Q; 3%:Q] [:: 0%:Q; 1%:Q; 2%:Q]
                             1 1%:Q.
  by apply: unbound; vm_compute.
- have [_ last_sub _ _] :=
    window_numtime_unguarded [:: 5%:Q; 4%:Q; 1%:Q] [:: 0%:Q; 1%:Q; 2%:Q]
                             1 2%:Q.
  by apply: (last_sub 1%N); vm_compute.
- have [_ _ first_sub _] :=
    window_numtime_unguarded [:: 2%:Q; 1%:Q; 0%:Q] [:: 0%:Q; 1%:Q; 2%:Q]
                             1 (3%:Q / 2%:Q).
  by apply: first_sub; vm_compute.
- have [_ _ _ equal] :=
    window_numtime_unguarded [:: 2%:Q; 1%:Q; 2%:Q; 1%:Q; 0%:Q]
                             [:: 0%:Q; 1%:Q; 2%:Q] 2 (3%:Q / 2%:Q).
  by apply: (equal 0%N); vm_compute.
Defined.

(** C10, as stated, fails on a mesh of two nodes: the scan breaks at the
    first subinterval and [t[i+2]] is out of range. *)
Lemma wraps_at_first_counterexample :
  ~ wraps_at_first [:: 2%:Q; 1%:Q] [:: 0%:Q; 1%:Q] 1 (3%:Q / 2%:Q).
Proof.
rewrite /wraps_at_first.
have -> : window_numtime [:: 2%:Q; 1%:Q] [:: 0%:Q; 1%:Q] 1 (3%:Q / 2%:Q)
          = Raise IndexError by apply/eqP; vm_compute.
have first0 : first_straddle [:: 2%:Q; 1%:Q] 1 (3%:Q / 2%:Q) 0
  by vm_compute.
by move=> /(_ isT first0) [].
Qed.

Lemma window_numtime_wraps_witness :
  exists2 w, window_numtime [:: 2%:Q; 1%:Q; 0%:Q] [:: 0%:Q; 1%:Q; 2%:Q] 1
               (3%:Q / 2%:Q) = Ok w
           & [/\ NL w = -1, tL w = 2%:Q, t2 w < tL w
               & (1%N == 1%N) ==> float_lt (num_time w) (tL w)].
Proof. by apply: window_numtime_wraps; vm_compute. Defined.

(** C4, as stated, fails at a point to the right of the mesh: both
    evaluators return 0 there. *)
Lemma checks_domain_counterexample :
  ~ checks_domain [:: 1%:Q; 2%:Q] [:: 0%:Q; 1%:Q] 1 5%:Q.
Proof.
rewrite /checks_domain.
have -> : evalfunc [:: 1%:Q; 2%:Q] [:: 0%:Q; 1%:Q] 1 5%:Q = Ok 0
  by apply/eqP; vm_compute.
have out : outside_span [:: 0%:Q; 1%:Q] 5%:Q by vm_compute.
by move=> /(_ out) [].
Qed.

Lemma evaluators_zero_outside_span_witness :
  evalfunc [:: 1%:Q; 2%:Q] [:: 0%:Q; 1%:Q] 1 5%:Q = Ok 0
  /\ evalderiv [:: 1%:Q; 2%:Q] [:: 0%:Q; 1%:Q] 1 5%:Q = Ok 0.
Proof. by apply: evaluators_zero_outside_span; vm_compute. Defined.

(** C5 fails on the code: at the final node of the mesh [[0, 1]] with
    [Y = [0, 1]] and degree 1 the last subinterval's polynomial has
    derivative 1, and [evalderiv] returns 0. *)
Theorem evalderiv_final_node_example :
  [/\ mesh [:: 0%:Q; 1%:Q],
      evalderiv [:: 0%:Q; 1%:Q] [:: 0%:Q; 1%:Q] 1 1%:Q = Ok 0
    & last_subinterval_derivative [:: 0%:Q; 1%:Q] [:: 0%:Q; 1%:Q] 1 = 1].
Proof. by split; first vm_compute; apply/eqP; vm_compute. Qed.

(** C2 fails on the code: with forward mesh [[0, 1, 2]] and adjoint mesh
    [[0, 1]] the scan stops at the first node greater than 1, so the
    prefix keeps the node 1 and the grid is [[0, 1, 1]], not the prefix of
    nodes less than 1 followed by 1; the grid returned by [get_err_lin]
    is not strictly increasing. *)
Theorem reconcile_duplicates_node :
  [/\ mesh [:: 0%:Q; 1%:Q; 2%:Q] && mesh [:: 0%:Q; 1%:Q],
      reconcile [:: 0%:Q; 1%:Q; 2%:Q] [:: 0%:Q; 1%:Q]
      = Ok (Some [:: 0%:Q; 1%:Q; 1%:Q]),
      get_err_lin midpoint_rule [:: 1%:Q; 1%:Q; 1%:Q] [:: 1%:Q; 1%:Q]
        (fun=> 0) 1 1 [:: 0%:Q; 1%:Q; 2%:Q] [:: 0%:Q; 1%:Q]
      = Ok (0, [:: 0; 0], [:: 0%:Q; 1%:Q; 1%:Q]),
      prefix_below [:: 0%:Q; 1%:Q; 2%:Q] [:: 0%:Q; 1%:Q] = [:: 0%:Q; 1%:Q]
    & ~~ mesh [:: 0%:Q; 1%:Q; 1%:Q]].
Proof. by split; try (by vm_compute); apply/eqP; vm_compute. Qed.

(** A forward mesh that ends before the adjoint's final node binds no
    grid at all, and [get_err_lin] fails at the first use of [t]. *)
Lemma reconcile_short_mesh :
  reconcile [:: 0%:Q; 1%:Q] [:: 0%:Q; 2%:Q] = Ok None
  /\ get_err_lin midpoint_rule [:: 1%:Q; 1%:Q] [:: 1%:Q; 1%:Q] (fun=> 0) 1 1
       [:: 0%:Q; 1%:Q] [:: 0%:Q; 2%:Q]
     = Raise UnboundLocalError.
Proof. by split; apply/eqP; vm_compute. Qed.

End Examples.

(** ** The Lagrange bases *)

Section Basis.

Variable R : realFieldType.
Implicit Types (a b x v : R) (I : seq R) (n j k : nat) (keep : pred nat).

Lemma nth_linspace a b n k :
  (k < n)%N -> (linspace a b n)`_k = k%:R * ((b - a) / (n.-1)%:R) + a.
Proof.
move=> k_n; rewrite /linspace.
by rewrite (nth_map 0%N) ?size_iota // nth_iota // add0n.
Qed.

Lemma size_linspace a b n : size (linspace a b n) = n.
Proof. by rewrite /linspace size_map size_iota. Qed.

Lemma linspace_first a b n : (linspace a b n.+1)`_0 = a.
Proof. by rewrite nth_linspace // mul0r add0r. Qed.

Lemma linspace_last a b n : (0 < n)%N -> (linspace a b n.+1)`_n = b.
Proof.
move=> n_gt0; rewrite nth_linspace //= mulrCA divff ?mulr1 ?subrK //.
by rewrite pnatr_eq0 -lt0n.
Qed.

(** The nodes of a non-degenerate interval are pairwise distinct. *)
Lemma linspace_inj a b n j k :
  a != b -> (j < n)%N -> (k < n)%N ->
  ((linspace a b n)`_j == (linspace a b n)`_k) = (j == k).
Proof.
move=> a_b j_n k_n; rewrite !nth_linspace //.
have n_gt1 : j != k -> ((n.-1)%:R != 0 :> R).
  rewrite pnatr_eq0 -lt0n => j_k; case: n j_n k_n => [|[|n]] //.
  by move: j_k; rewrite !ltnS !leqn0 => /[swap] /eqP-> /[swap] /eqP->.
have [->|j_k] := eqVneq j k; first by rewrite eqxx.
rewrite (inj_eq (addIr a)) -subr_eq0 -mulrBl mulf_eq0 subr_eq0 eqr_nat.
rewrite (negPf j_k) /= mulf_eq0 subr_eq0 [b == a]eq_sym (negPf a_b) /=.
by rewrite invr_eq0 (negPf (n_gt1 j_k)).
Qed.

(** The product loop is a product over the indices it keeps. *)
Lemma foldl_lagr_step I keep j x v (r : seq nat) :
  foldl (lagr_step I keep j x) v r
  = v * \prod_(k <- r | keep k) ((x - I`_k) / (I`_j - I`_k)).
Proof.
elim: r v => [|k r IH] v /=; first by rewrite big_nil mulr1.
by rewrite IH big_cons /lagr_step; case: (keep k); rewrite ?mulrA.
Qed.

Lemma LagrE a b n j x :
  Lagr a b n j x
  = \prod_(k <- iota 0 n.+1 | k != j)
      ((x - (linspace a b n.+1)`_k)
       / ((linspace a b n.+1)`_j - (linspace a b n.+1)`_k)).
Proof. by rewrite /Lagr foldl_lagr_step mul1r. Qed.

(** Cardinal property: the [j]-th trial function is 1 at node [j] and 0
    at the other nodes. *)
Lemma Lagr_node a b n i j :
  a != b -> (i <= n)%N -> (j <= n)%N ->
  Lagr a b n j (linspace a b n.+1)`_i = (i == j)%:R.
Proof.
move=> a_b i_n j_n; rewrite LagrE.
have [->|i_j] := eqVneq i j.
  rewrite big1_seq // => k /andP[k_j]; rewrite mem_iota add0n /= => k_n.
  by rewrite divff // subr_eq0 linspace_inj // eq_sym.
apply/eqP; rewrite prodf_seq_eq0; apply/hasP; exists i.
  by rewrite mem_iota.
by rewrite i_j subrr mul0r eqxx.
Qed.

Lemma Lagr_left a b n j :
  a != b -> (j <= n)%N -> Lagr a b n j a = (j == 0%N)%:R.
Proof.
move=> a_b j_n; have := @Lagr_node a b n 0 j a_b (leq0n n) j_n.
by rewrite linspace_first eq_sym.
Qed.

End Basis.

(** ** Evaluation at the mesh nodes *)

Section NodeEvaluation.

Variable R : realFieldType.
Implicit Types (Y t : seq R) (q i j : nat) (x ans : R).

Lemma accumulate_sum (basis : R -> R -> nat -> nat -> R -> R) Y t q x i
    (r : seq nat) ans :
  all (fun j => q * i + j < size Y)%N r ->
  forM r (fun j ans => let! y := item Y (q * i + j) in
                       Ok (ans + y * basis t`_i t`_i.+1 q j x)) ans
  = Ok (ans + \sum_(j <- r) Y`_(q * i + j) * basis t`_i t`_i.+1 q j x).
Proof.
elim: r ans => [|j r IH] ans /=; first by rewrite big_nil addr0.
by case/andP=> j_Y /IH{}IH; rewrite (item_nth 0) //= IH big_cons addrA.
Qed.

Lemma accumulateE (basis : R -> R -> nat -> nat -> R -> R) Y t q x i ans :
  (q * i + q < size Y)%N ->
  accumulate basis Y t q x i ans
  = Ok (ans + \sum_(j <- iota 0 q.+1)
                Y`_(q * i + j) * basis t`_i t`_i.+1 q j x).
Proof.
move=> i_Y; apply: accumulate_sum; apply/allP=> j.
rewrite mem_iota add0n ltnS /= => j_q.
by apply: leq_ltn_trans i_Y; rewrite leq_add2l.
Qed.

(** On a mesh, a point of subinterval [i] belongs to no other one: the
    outer loop reduces to the inner loop at [i]. *)
Lemma piecewise_inside (basis : R -> R -> nat -> nat -> R -> R) Y t q x i
    ans :
  mesh t -> (i < (size t).-1)%N -> inside t i x ->
  piecewise basis Y t q x ans = accumulate basis Y t q x i ans.
Proof.
move=> t_mesh i_t /andP[ti_x x_ti]; rewrite /piecewise.
rewrite -[in LHS](subnKC (ltnW i_t)) iotaD add0n -(subnSK i_t) forM_cat.
rewrite forM_skip /= => [k|].
  rewrite mem_iota add0n /= => k_i.
  suff /negPf->: ~~ (x < t`_k.+1) by rewrite andbF.
  rewrite -leNgt (le_trans _ ti_x) // mesh_leq //.
  by apply: leq_trans i_t (leq_pred _).
rewrite ti_x x_ti /=; case: accumulate => //= ans'.
apply: forM_skip => k; rewrite mem_iota subnKC // => /andP[i_k k_t].
have /negPf->// : ~~ (t`_k <= x).
by rewrite -ltNge (lt_le_trans x_ti) // mesh_leq // (leq_trans k_t) ?leq_pred.
Qed.

(** At a node other than the last, [evalfunc] returns the nodal value
    stored for that node. *)
Lemma evalfunc_node Y t q i :
  mesh t -> (0 < q)%N -> (i < (size t).-1)%N -> (q * i + q < size Y)%N ->
  evalfunc Y t q t`_i = Ok Y`_(q * i).
Proof.
move=> t_mesh q_gt0 i_t i_Y; rewrite /evalfunc.
have t_gt0 : (0 < size t)%N by case: (size t) i_t.
have i_last : t`_i < last 0 t.
  by rewrite -nth_last mesh_ltn // ltn_predL.
rewrite (getitem_last 0) //= lt_eqF //.
have ti_lt : t`_i < t`_i.+1 by rewrite mesh_ltn // -ltn_predRL.
have ti_in : inside t i t`_i by rewrite /inside lexx.
rewrite (piecewise_inside _ _ _ _ t_mesh i_t ti_in) accumulateE // add0r.
rewrite -[iota 0 q.+1]/(0%N :: iota 1 q) big_cons addn0.
have ti_ne : t`_i != t`_i.+1 by rewrite lt_eqF.
rewrite (Lagr_left ti_ne) //= mulr1.
rewrite big1_seq ?addr0 // => j; rewrite mem_iota /= add1n => /andP[j_gt0 j_q].
by rewrite (Lagr_left ti_ne) // eqn0Ngt j_gt0 mulr0.
Qed.

(** At the last node the stored last value comes back directly. *)
Lemma evalfunc_last Y t q :
  (0 < size t)%N -> evalfunc Y t q (last 0 t) = getitem Y (-1).
Proof. by move=> t_gt0; rewrite /evalfunc (getitem_last 0) //= eqxx. Qed.

End NodeEvaluation.

(** ** The shape of the solver's output *)

Section SolverShape.

Variable R : realFieldType.
Variable leggauss : nat -> seq (R * R).
Implicit Types (F : R -> R) (y t s : seq R) (q n k : nat).

(** A slice assignment keeps the length and every entry outside the
    slice. *)
Lemma set_slice_frame y (lo : nat) s y' :
  set_slice y lo s = Ok y' ->
  size y' = size y
  /\ forall k, ~~ (lo <= k < lo + size s)%N -> y'`_k = y`_k.
Proof.
rewrite /set_slice; case: leqP => [hi_y [<-]|_]; last first.
  by case: ifP => // _ [<-].
have lo_y : (lo <= size y)%N := leq_trans (leq_addr _ _) hi_y.
split=> [|k].
  rewrite !size_cat size_takel // size_drop addnA subnKC //.
rewrite negb_and -ltnNge -leqNgt nth_cat size_takel //.
case: ltnP => [k_lo _|lo_k /=]; first by rewrite nth_take.
move=> hi_k; rewrite nth_cat ltnNge leq_subRL // hi_k /= nth_drop.
by rewrite -subnDA subnKC.
Qed.

(** One pass writes the global indices [n*q+1 .. (n+1)*q] only. *)
Lemma solve_lin_step_frame F t q n y y' :
  solve_lin_step leggauss F t q n y = Ok y' ->
  size y' = size y
  /\ forall k, ~~ (n * q < k <= n.+1 * q)%N -> y'`_k = y`_k.
Proof.
rewrite /solve_lin_step; case: item => //= yn; case: linalg_solve => //= s.
case/set_slice_frame=> size_y' frame; split=> // k k_out; apply: frame.
by rewrite size_map size_enum_ord addn1 addSn ltnS addnC -mulSn.
Qed.

Lemma solve_lin_unfold (y0 : R) F t q :
  (0 < size t)%N -> (0 < q)%N ->
  solve_lin leggauss y0 F t q
  = forM (iota 0 (size t).-1) (solve_lin_step leggauss F t q)
         (y0 :: nseq ((size t).-1 * q) 0).
Proof.
case: t => [|t0 t] //= _ q_gt0; rewrite /solve_lin /leggauss_call /=.
by rewrite subn1 addn1 /= muln_eq0 /= eqn0Ngt q_gt0.
Qed.

(** The run keeps the length [N*q+1] and the entry at index 0. *)
Lemma solve_lin_shape (y0 : R) F t q y :
  (0 < size t)%N -> (0 < q)%N ->
  solve_lin leggauss y0 F t q = Ok y ->
  size y = ((size t).-1 * q + 1)%N /\ y`_0 = y0.
Proof.
move=> t_gt0 q_gt0; rewrite solve_lin_unfold // => run.
pose shape y1 := size y1 = ((size t).-1 * q + 1)%N /\ y1`_0 = y0.
apply: (forM_invariant (P := shape) _ _ run) => [n y1 y2 [size_y1 y1_0]|].
  case/solve_lin_step_frame=> size_y2 frame; split; first by rewrite size_y2.
  by rewrite frame.
by rewrite /shape /= size_nseq addn1.
Qed.

(** With every local system invertible the run completes. *)
Lemma solve_lin_total (y0 : R) F t q :
  (0 < size t)%N -> (0 < q)%N ->
  (forall n, (n < (size t).-1)%N ->
     rsubmx (local_matrix leggauss F t`_n t`_n.+1 q) \in unitmx) ->
  exists y, solve_lin leggauss y0 F t q = Ok y.
Proof.
move=> t_gt0 q_gt0 A_unit; rewrite solve_lin_unfold //.
set N := (size t).-1.
have [||y -> _] := @forM_total _ _ (fun y => size y = (N * q + 1)%N)
    (iota 0 N) (solve_lin_step leggauss F t q) (y0 :: nseq (N * q) 0);
  [|by rewrite /= size_nseq addn1|by exists y].
move=> n; rewrite mem_iota add0n /= => n_N y size_y.
have nq_y : (n.+1 * q <= N * q)%N by rewrite leq_mul2r n_N orbT.
have n_y : (n * q < size y)%N.
  by rewrite size_y addn1 ltnS (leq_trans _ nq_y) // leq_mul2r leqnSn orbT.
rewrite /solve_lin_step (item_nth 0) //= /linalg_solve A_unit //=.
case slice: set_slice => [y'|e].
  by exists y' => //; have [-> _] := set_slice_frame slice.
move: slice; rewrite /set_slice size_map size_enum_ord.
by rewrite size_y addnAC leq_add2r -mulSnr nq_y.
Qed.

End SolverShape.

(** ** Gauss quadrature *)

Section Quadrature.

Variable R : realFieldType.
Variable leggauss : nat -> seq (R * R).
Implicit Types (p d : {poly R}) (a b c m x : R) (n : nat).




Lemma foldl_sum (h : nat -> R) (z : R) (r : seq nat) :
  foldl (fun ans k => ans + h k) z r = z + \sum_(k <- r) h k.
Proof.
elim: r z => [|k r IH] z /=; first by rewrite big_nil addr0.
by rewrite IH big_cons addrA.
Qed.

(** The quadrature loop is the weighted sum over the mapped nodes. *)
Lemma GaussQuadE a b n (f : R -> R) :
  GaussQuad leggauss a b n f
  = \sum_(pw <- leggauss n)
      (b - a) / 2 * pw.2 * f ((b - a) / 2 * pw.1 + (a + b) / 2).
Proof.
rewrite /GaussQuad foldl_sum add0r size_map size_map.
rewrite (big_nth (0, 0)) /index_iota subn0 big_seq [RHS]big_seq.
apply: eq_bigr => k; rewrite mem_iota add0n /= => k_n.
rewrite (nth_map 0) ?size_map // (nth_map (0, 0)) //.
by rewrite (nth_map (0, 0)).
Qed.

Lemma coef_prim p i :
  (prim p)`_i = if i is k.+1 then p`_k / k.+1%:R else 0.
Proof.
rewrite coef_poly; case: i => [|k] //; rewrite ltnS.
by case: leqP => // /leq_sizeP->; rewrite // mul0r.
Qed.

Lemma deriv_prim p : (prim p)^`() = p.
Proof.
apply/polyP=> i; rewrite coef_deriv coef_prim -mulr_natr divfK //.
by rewrite pnatr_eq0.
Qed.

Lemma integralE p a b : integral p a b = (prim p).[b] - (prim p).[a].
Proof.
rewrite /prim !horner_poly !big_ord_recl !mul0r !add0r -sumrB.
apply: eq_bigr => i _; rewrite /bump /= ?add0n ?add1n -mulrBr.
by rewrite mulrAC.
Qed.

(** In characteristic 0 a polynomial with zero derivative is constant. *)
Lemma deriv0_const d x y : d^`() = 0 -> d.[x] = d.[y].
Proof.
move=> d'0; have -> : d = (d`_0)%:P; last by rewrite !hornerC.
apply/polyP=> -[|i]; rewrite coefC //=.
have /eqP := coef_deriv d i; rewrite d'0 coef0 eq_sym mulrn_eq0 /=.
by move/eqP.
Qed.

(** Change of variable [x = c * u + m] between [[m - c, m + c]] and the
    reference interval. *)
Lemma integral_affine p c m :
  c * integral (p \Po (c *: 'X + m%:P)) (-1) 1 = integral p (m - c) (m + c).
Proof.
set g := c *: 'X + m%:P.
pose d := c *: prim (p \Po g) - (prim p \Po g).
have d'0 : d^`() = 0.
  rewrite /d derivB derivZ deriv_prim deriv_comp deriv_prim.
  rewrite /g derivD derivZ derivX derivC addr0 -mul_polyC.
  by rewrite alg_polyC mulrC subrr.
have := deriv0_const 1 (-1) d'0.
rewrite /d !hornerE !horner_comp /g !hornerE mulrN1 => cancel.
rewrite !integralE mulrBr [m + c]addrC [m - c]addrC.
rewrite -[c * _.[1]](subrK (prim p).[c + m]) cancel.
by ring.
Qed.

Lemma size_comp_affine p c m :
  (size (p \Po (c *: 'X + m%:P))%R <= size p)%N.
Proof.
have [->|p_neq0] := eqVneq p 0; first by rewrite comp_poly0.
apply: leq_trans (size_comp_poly_leq _ _) _.
rewrite -[X in (_ <= X)%N]prednK ?size_poly_gt0 // ltnS.
rewrite -[X in (_ <= X)%N]muln1 leq_mul2l; apply/orP; right.
set g := (c *: 'X + m%:P)%R; have : (size g <= 2)%N.
  apply: leq_trans (size_polyD _ _) _; rewrite geq_max.
  rewrite (leq_trans (size_scale_leq _ _)) ?size_polyX //=.
  exact: leq_trans (size_polyC_leq1 _) _.
by case: (size g) => [|[|[|k]]].
Qed.

End Quadrature.

Section QuadratureClaim.

Variable R : realFieldType.
Variable leggauss : nat -> seq (R * R).

(** C9: with the [order] Gauss-Legendre pairs exact on [[-1, 1]] up to
    degree [2*order - 1], [GaussQuad] maps the nodes affinely to
    [[left, right]], scales the weights by the half-length, and its
    weighted sum is the exact integral over [[left, right]] of every
    polynomial integrand of degree at most [2*order - 1]. *)
Theorem GaussQuad_exact (left right : R) (order : nat) (p : {poly R}) :
  (0 < order)%N -> exact_rule (leggauss order) order ->
  (size p <= 2 * order)%N ->
  GaussQuad leggauss left right order (horner p) = integral p left right.
Proof.
move=> _ [_ exact] p_deg; rewrite GaussQuadE.
set c := (right - left) / 2; set m := (left + right) / 2.
have -> : left = m - c by rewrite /m /c; field.
have -> : right = m + c by rewrite /m /c; field.
have pg_deg := leq_trans (size_comp_affine p c m) p_deg.
rewrite -integral_affine -(exact _ pg_deg).
rewrite big_distrr /=; apply: eq_bigr => pw _.
by rewrite horner_comp !hornerE.
Qed.

End QuadratureClaim.

(** ** The bases as polynomials *)

Section BasisPolynomials.

Variable R : realFieldType.
Implicit Types (a b x : R) (I : seq R) (n j k m : nat) (r : seq nat).
Implicit Types (p : {poly R}) (keep : pred nat).



Lemma horner_node_poly I j k x :
  (node_poly I j k).[x] = (x - I`_k) / (I`_j - I`_k).
Proof. by rewrite /node_poly !hornerE mulrC. Qed.

Lemma deriv_node_poly I j k : (node_poly I j k)^`() = ((I`_j - I`_k)^-1)%:P.
Proof. by rewrite /node_poly derivZ derivXsubC alg_polyC. Qed.

Lemma size_node_prod I j r keep :
  (size (\prod_(k <- r | keep k) node_poly I j k)%R <= (count keep r).+1)%N.
Proof.
elim: r => [|k r IH] /=; first by rewrite big_nil size_poly1.
rewrite big_cons; case: (keep k); last by rewrite add0n.
apply: leq_trans (size_polyMleq _ _) _; rewrite add1n.
have size_f : (size (node_poly I j k) <= 2)%N.
  by rewrite (leq_trans (size_scale_leq _ _)) // size_XsubC.
by rewrite -subn1 leq_subLR add1n (leq_trans (leq_add size_f IH)).
Qed.

Lemma size_Lagr_poly a b n j :
  (j <= n)%N -> (size (Lagr_poly a b n j) <= n.+1)%N.
Proof.
move=> j_n; apply: leq_trans (size_node_prod _ _ _ _) _; rewrite ltnS.
have := count_predC (pred1 j) (iota 0 n.+1).
rewrite size_iota count_uniq_mem ?iota_uniq // mem_iota leq0n add0n ltnS j_n.
move/eqP; rewrite add1n eqSS => /eqP count_n.
by rewrite -[X in (_ <= X)%N]count_n; apply: eq_leq; apply: eq_count.
Qed.

Lemma horner_Lagr_poly a b n j x : (Lagr_poly a b n j).[x] = Lagr a b n j x.
Proof.
rewrite LagrE /Lagr_poly horner_prod.
by apply: eq_bigr => k _; rewrite horner_node_poly.
Qed.

(** The derivative of a product over distinct indices: the sum over the
    index left out of the product of the others. *)
Lemma deriv_prod (f : nat -> {poly R}) keep r :
  uniq r ->
  (\prod_(k <- r | keep k) f k)^`()
  = \sum_(m <- r | keep m)
      (f m)^`() * \prod_(k <- r | keep k && (k != m)) f k.
Proof.
elim: r => [|k0 r IH] /=; first by rewrite !big_nil derivC.
case/andP=> k0_r /IH{}IH; rewrite !big_cons.
have others m : m \in r ->
    \prod_(k <- k0 :: r | keep k && (k != m)) f k
    = (if keep k0 then f k0 else 1)
      * \prod_(k <- r | keep k && (k != m)) f k.
  move=> m_r; rewrite big_cons; have -> : k0 != m.
    by apply: contraNneq k0_r => ->.
  by rewrite andbT; case: (keep k0); rewrite ?mul1r.
have rest : \sum_(m <- r | keep m)
      (f m)^`() * \prod_(k <- k0 :: r | keep k && (k != m)) f k
    = (if keep k0 then f k0 else 1)
      * \sum_(m <- r | keep m)
          (f m)^`() * \prod_(k <- r | keep k && (k != m)) f k.
  rewrite big_distrr /= big_seq_cond [RHS]big_seq_cond.
  apply: eq_bigr => m /andP[m_r _]; rewrite others //.
  by rewrite mulrCA.
rewrite rest -IH eqxx andbF.
have -> : \prod_(k <- r | keep k && (k != k0)) f k
          = \prod_(k <- r | keep k) f k.
  rewrite big_seq_cond [RHS]big_seq_cond; apply: eq_bigl => k.
  by case k_r: (k \in r) => //=; rewrite (memPn k0_r) ?andbT.
by case: (keep k0); rewrite ?mul1r // derivM.
Qed.

Lemma foldl_cond_sum (h : nat -> R) keep (z : R) r :
  foldl (fun d m => if keep m then d + h m else d) z r
  = z + \sum_(m <- r | keep m) h m.
Proof.
elim: r z => [|m r IH] z /=; first by rewrite big_nil addr0.
by rewrite IH big_cons; case: (keep m); rewrite ?addrA.
Qed.

Lemma horner_deriv_Lagr_poly a b n j x :
  ((Lagr_poly a b n j)^`()).[x] = dLagr a b n j x.
Proof.
rewrite /dLagr foldl_cond_sum add0r /Lagr_poly deriv_prod ?iota_uniq //.
rewrite horner_sum; apply: eq_bigr => m _.
rewrite deriv_node_poly hornerE div1r foldl_lagr_step mul1r.
rewrite horner_prod; congr (_ * _).
by apply: eq_bigr => k _; rewrite horner_node_poly.
Qed.

(** The test functions of degree [q] are the trial functions of degree
    [q - 1]. *)
Lemma TestLagrE a b q j x :
  (j < q)%N -> TestLagr a b q j x = Lagr a b q.-1 j x.
Proof.
case: q => [|[|q]] //=; rewrite ltnS leqn0 => /eqP->.
by rewrite /TestLagr /Lagr /= /lagr_step.
Qed.

Lemma linspace_uniq a b n : a != b -> uniq (linspace a b n).
Proof.
move=> a_b; apply/(uniqP 0) => j k; rewrite !inE size_linspace => j_n k_n.
by move/eqP; rewrite linspace_inj // => /eqP.
Qed.

(** Lagrange interpolation: a polynomial of degree at most [n] is the
    combination of the trial polynomials with its values at the nodes. *)
Lemma Lagr_interpolation a b n p :
  a != b -> (size p <= n.+1)%N ->
  p = \sum_(j < n.+1) p.[(linspace a b n.+1)`_j] *: Lagr_poly a b n j.
Proof.
move=> a_b p_n; set I := linspace a b n.+1; set s := \sum_(j < _) _.
apply/eqP; rewrite -subr_eq0; apply: contraTT isT => d_neq0.
have size_d : (size (p - s)%R <= n.+1)%N.
  apply: leq_trans (size_polyD _ _) _; rewrite geq_max p_n size_polyN.
  apply: leq_trans (size_sum _ _ _) _; apply/bigmax_leqP => j _.
  by rewrite (leq_trans (size_scale_leq _ _)) // size_Lagr_poly // -ltnS.
have roots : all (root (p - s)) I.
  apply/(all_nthP 0) => i; rewrite size_linspace => i_n.
  have i_le : (i <= n)%N by rewrite -ltnS.
  rewrite /root !hornerE horner_sum (bigD1 (Ordinal i_n)) //=.
  rewrite hornerE horner_Lagr_poly (Lagr_node a_b i_le i_le) eqxx mulr1.
  rewrite big1 ?addr0 ?subrr // => j j_i; rewrite hornerE horner_Lagr_poly.
  have j_le : (j <= n)%N by rewrite -ltnS ltn_ord.
  have i_j : (i == j :> nat) = false.
    by rewrite eq_sym; apply: negPf; move: j_i; rewrite -val_eqE.
  by rewrite (Lagr_node a_b i_le j_le) i_j mulr0.
have := max_poly_roots d_neq0 roots (linspace_uniq _ a_b).
by rewrite size_linspace ltnNge size_d.
Qed.

End BasisPolynomials.

(** ** The local system of the homogeneous problem *)

Section LocalSystem.

Variable R : realFieldType.
Variable leggauss : nat -> seq (R * R).
Implicit Types (a b x : R) (n q : nat) (u v : {poly R}).



Lemma dotC a b n u v : dot leggauss a b n u v = dot leggauss a b n v u.
Proof.
by rewrite /dot !GaussQuadE; apply: eq_bigr => pw _; rewrite [u.[_] * _]mulrC.
Qed.

Lemma dot0 a b n u : dot leggauss a b n u 0 = 0.
Proof.
by rewrite /dot GaussQuadE big1 // => pw _; rewrite horner0 !mulr0.
Qed.

Lemma dot_sumr (I : Type) (r : seq I) (c : I -> R) (f : I -> {poly R})
    a b n u :
  dot leggauss a b n u (\sum_(i <- r) c i *: f i)
  = \sum_(i <- r) c i * dot leggauss a b n u (f i).
Proof.
rewrite /dot !GaussQuadE.
under eq_bigr do rewrite horner_sum !mulr_sumr.
rewrite exchange_big /=; apply: eq_bigr => i _.
rewrite GaussQuadE mulr_sumr; apply: eq_bigr => pw _.
by rewrite hornerZ; ring.
Qed.

(** On a non-degenerate interval a positive rule of at least [size u]
    pairs separates [u] from 0. *)
Lemma dot_definite a b n u :
  a < b -> positive_rule (leggauss n) n -> (size u <= n)%N ->
  dot leggauss a b n u u = 0 -> u = 0.
Proof.
move=> a_b /and3P[/eqP size_rule nodes_uniq /allP weights_pos] u_n.
rewrite /dot GaussQuadE; set c := (b - a) / 2; set m := (a + b) / 2.
have c_gt0 : 0 < c by rewrite divr_gt0 ?subr_gt0 ?ltr0n.
pose g x := c * x + m.
have g_inj : injective g.
  by move=> x y /addIr /(mulfI (lt0r_neq0 c_gt0)).
have w_gt0 (pw : R * R) : pw \in leggauss n -> 0 < pw.2.
  by move=> pw_rule; apply: weights_pos; apply: map_f.
have term_ge0 (pw : R * R) :
    (pw \in leggauss n) && true -> 0 <= c * pw.2 * (u.[g pw.1] * u.[g pw.1]).
  move=> /andP[/w_gt0 w_pos _]; rewrite -mulrA mulr_ge0 ?(ltW c_gt0) //.
  by rewrite mulr_ge0 ?(ltW w_pos) // -expr2 sqr_ge0.
rewrite big_seq_cond => /eqP; rewrite (psumr_eq0 _ term_ge0).
move/allP=> root_u; apply/eqP; apply: contraTT isT => u_neq0.
have roots : all (root u) (map g (unzip1 (leggauss n))).
  apply/allP=> _ /mapP[_ /mapP[pw pw_rule ->] ->].
  have := root_u pw pw_rule; rewrite pw_rule /= mulf_eq0 mulf_eq0.
  rewrite (gt_eqF c_gt0) (gt_eqF (w_gt0 _ pw_rule)) /= mulf_eq0 orbb.
  by [].
have := max_poly_roots u_neq0 roots.
rewrite (map_inj_uniq g_inj) nodes_uniq !size_map size_rule => /(_ isT).
by rewrite ltnNge u_n.
Qed.

(** With [F = 0] the entries of the local matrix are products of a test
    polynomial and the derivative of a trial polynomial. *)
Lemma local_matrix0E a b q (j : 'I_q) (i : 'I_(1 + q)) :
  local_matrix leggauss (fun=> 0) a b q j i
  = dot leggauss a b (5 * q) (Lagr_poly a b q.-1 j) (Lagr_poly a b q i)^`().
Proof.
rewrite mxE /dot !GaussQuadE; apply: eq_bigr => pw _.
by rewrite mul0r subr0 TestLagrE // !horner_Lagr_poly horner_deriv_Lagr_poly.
Qed.

(** The trial polynomials sum to 1, so their derivatives sum to 0. *)
Lemma sum_Lagr_poly a b q :
  a != b -> \sum_(i < q.+1) Lagr_poly a b q i = 1.
Proof.
move=> a_b; rewrite [RHS](@Lagr_interpolation _ a b q 1 a_b) ?size_poly1 //.
by apply: eq_bigr => i _; rewrite hornerC scale1r.
Qed.

(** Each row of the local matrix sums to 0: the constant function solves
    the homogeneous local problem. *)
Lemma local_matrix0_row a b q (j : 'I_q) :
  a != b -> \sum_i local_matrix leggauss (fun=> 0) a b q j i = 0.
Proof.
move=> a_b.
have -> : \sum_i local_matrix leggauss (fun=> 0) a b q j i
          = dot leggauss a b (5 * q) (Lagr_poly a b q.-1 j)
              (\sum_(i < q.+1) 1 *: (Lagr_poly a b q i)^`()).
  rewrite dot_sumr; apply: eq_bigr => i _.
  by rewrite local_matrix0E mul1r.
have -> : \sum_(i < q.+1) 1 *: (Lagr_poly a b q i)^`() = 0.
  under eq_bigr do rewrite scale1r.
  by rewrite -raddf_sum sum_Lagr_poly //= -polyC1 derivC.
by rewrite dot0.
Qed.

End LocalSystem.

Section LocalSolve.

Variable R : realFieldType.
Variable leggauss : nat -> seq (R * R).
Implicit Types (a b x y : R) (n q : nat) (u : {poly R}).

(** The pairing of every test polynomial with a polynomial of degree at
    most [q - 1] vanishes only for the zero polynomial. *)
Lemma test_separates a b q u :
  a < b -> (0 < q)%N -> positive_rule (leggauss (5 * q)) (5 * q) ->
  (size u <= q)%N ->
  (forall j, (j < q)%N ->
     dot leggauss a b (5 * q) (Lagr_poly a b q.-1 j) u = 0) ->
  u = 0.
Proof.
move=> a_b q_gt0 rule_pos u_q dotT.
have a_ne : a != b by rewrite lt_eqF.
have u_q' : (size u <= q.-1.+1)%N by rewrite prednK.
apply: (dot_definite a_b rule_pos).
  by apply: leq_trans u_q _; rewrite leq_pmull.
rewrite {2}(@Lagr_interpolation _ a b q.-1 u a_ne u_q') dot_sumr.
rewrite big1 // => j _; rewrite dotC dotT ?mulr0 //.
by rewrite -[X in (_ < X)%N]prednK.
Qed.

(** The unknown block of the homogeneous local system is invertible. *)
Lemma local_matrix0_unit a b q :
  a < b -> (0 < q)%N -> positive_rule (leggauss (5 * q)) (5 * q) ->
  rsubmx (local_matrix leggauss (fun=> 0) a b q) \in unitmx.
Proof.
move=> a_b q_gt0 rule_pos; set A := rsubmx _.
have a_ne : a != b by rewrite lt_eqF.
rewrite unitmxE unitfE -det_tr; apply/negP => /det0P[v v_neq0 vA].
pose u : {poly R} := \sum_(i < q) v 0 i *: Lagr_poly a b q (1 + i).
have size_u : (size u <= q.+1)%N.
  apply: leq_trans (size_sum _ _ _) _; apply/bigmax_leqP => i _.
  by rewrite (leq_trans (size_scale_leq _ _)) // size_Lagr_poly // add1n.
have size_u' : (size u^`() <= q)%N.
  have [->|u_neq0] := eqVneq u 0; first by rewrite linear0 size_poly0.
  by rewrite -ltnS (leq_trans (lt_size_deriv u_neq0)).
have u'0 : u^`() = 0.
  apply: (test_separates a_b q_gt0 rule_pos size_u') => j j_q.
  have := congr1 (fun w : 'rV_q => w 0 (Ordinal j_q)) vA.
  rewrite !mxE => <-; rewrite /u raddf_sum /=.
  under eq_bigr do rewrite derivZ.
  rewrite dot_sumr; apply: eq_bigr => i _.
  by rewrite mxE /A mxE local_matrix0E.
have u_a : u.[a] = 0.
  rewrite /u horner_sum big1 // => i _.
  by rewrite hornerZ horner_Lagr_poly Lagr_left // ?add1n // mulr0.
have v0 : v = 0.
  apply/rowP=> i; rewrite mxE.
  have := deriv0_const (linspace a b q.+1)`_(1 + i) a u'0.
  rewrite u_a /u horner_sum (bigD1 i) //= hornerZ horner_Lagr_poly.
  have i_q : (1 + i <= q)%N by rewrite add1n.
  rewrite (Lagr_node a_ne i_q i_q) eqxx mulr1 big1 ?addr0 // => k k_i.
  have k_q : (1 + k <= q)%N by rewrite add1n.
  rewrite hornerZ horner_Lagr_poly (Lagr_node a_ne i_q k_q).
  have -> : (1 + i == 1 + k)%N = false.
    by rewrite eqn_add2l eq_sym; apply: negPf; move: k_i; rewrite -val_eqE.
  by rewrite mulr0.
by rewrite v0 eqxx in v_neq0.
Qed.

(** The local solve of the homogeneous problem returns the constant
    vector. *)
Lemma linalg_solve0 a b q y :
  a < b -> (0 < q)%N -> positive_rule (leggauss (5 * q)) (5 * q) ->
  let M := local_matrix leggauss (fun=> 0) a b q in
  linalg_solve (rsubmx M) (- y *: lsubmx M) = Ok (const_mx y).
Proof.
move=> a_b q_gt0 rule_pos M; rewrite /linalg_solve.
have A_unit := local_matrix0_unit a_b q_gt0 rule_pos.
rewrite -/M in A_unit; rewrite A_unit; congr Ok.
have -> : - y *: lsubmx M = rsubmx M *m const_mx y; last by rewrite mulKmx.
apply/colP=> j; rewrite [LHS]mxE [X in _ * X]mxE [RHS]mxE.
have a_ne : a != b by rewrite lt_eqF.
have := @local_matrix0_row _ leggauss a b q j a_ne.
rewrite big_split_ord /= big_ord1 -/M => /eqP.
rewrite addrC addr_eq0 => /eqP row_j.
under eq_bigr do rewrite [rsubmx _ _ _]mxE [const_mx _ _ _]mxE.
by rewrite -mulr_suml row_j !mulNr mulrC.
Qed.

End LocalSolve.

(** ** The solver on the homogeneous problem *)

Section ConstantSolution.

Variable R : realFieldType.
Variable leggauss : nat -> seq (R * R).
Implicit Types (t y : seq R) (n q : nat).

Lemma forM_iota_chain (S : Type) (body : nat -> S -> result S)
    (st : nat -> S) (m k : nat) :
  (forall n, (m <= n < m + k)%N -> body n (st n) = Ok (st n.+1)) ->
  forM (iota m k) body (st m) = Ok (st (m + k)%N).
Proof.
elim: k m => [|k IH] m step; first by rewrite /= addn0.
have step_m : body m (st m) = Ok (st m.+1).
  by apply: step; rewrite leqnn -addSnnS ltn_addr.
rewrite [LHS]/= step_m [LHS]/= -addSnnS; apply: IH => n /andP[m_n n_k].
by apply: step; rewrite (ltnW m_n) -addSnnS.
Qed.


Lemma solve_lin_step0 (y0 : R) t q n :
  mesh t -> (0 < q)%N -> positive_rule (leggauss (5 * q)) (5 * q) ->
  (n < (size t).-1)%N ->
  solve_lin_step leggauss (fun=> 0) t q n (filled y0 (size t).-1 q n)
  = Ok (filled y0 (size t).-1 q n.+1).
Proof.
move=> t_mesh q_gt0 rule_pos n_N; set N := (size t).-1 in n_N *.
have tn_lt : t`_n < t`_n.+1 by rewrite mesh_ltn // -ltn_predRL.
rewrite /solve_lin_step /filled.
have -> : item (nseq (n * q + 1) y0 ++ nseq ((N - n) * q) 0) (n * q) = Ok y0.
  rewrite (item_nth 0) ?size_cat ?size_nseq ?addn1 ?ltn_addr //.
  by rewrite nth_cat size_nseq leqnn nth_nseq leqnn.
rewrite [bind _ _]/= linalg_solve0 //=.
have -> : [seq (const_mx y0 : 'cV[R]_q) k ord0 | k <- enum 'I_q] = nseq q y0.
  apply: (@eq_from_nth _ 0); rewrite size_map size_enum_ord ?size_nseq //.
  move=> k k_q; rewrite (nth_map (Ordinal k_q)) ?size_enum_ord // mxE.
  by rewrite nth_nseq k_q.
have split_N : ((N - n) * q = q + (N - n.+1) * q)%N.
  by rewrite -mulSn subnSK.
rewrite /set_slice size_cat !size_nseq leq_add2l split_N leq_addr.
rewrite take_size_cat ?size_nseq // drop_cat size_nseq ltnNge leq_addr /=.
rewrite addKn [nseq (q + _) 0]nseqD drop_size_cat ?size_nseq // catA -nseqD.
by rewrite addnAC -mulSnr.
Qed.

(** With [F = 0] the solver returns the initial value at every node. *)
Lemma solve_lin_zero (y0 : R) t q :
  mesh t -> (0 < size t)%N -> (0 < q)%N ->
  positive_rule (leggauss (5 * q)) (5 * q) ->
  solve_lin leggauss y0 (fun=> 0) t q = Ok (nseq ((size t).-1 * q + 1) y0).
Proof.
move=> t_mesh t_gt0 q_gt0 rule_pos; rewrite solve_lin_unfold //.
have := @forM_iota_chain _ (solve_lin_step leggauss (fun=> 0) t q)
          (filled y0 (size t).-1 q) 0 (size t).-1.
rewrite /filled mul0n add0n subn0 add0n subnn mul0n cats0 /=; apply.
by move=> n n_N; apply: solve_lin_step0.
Qed.

End ConstantSolution.

(** ** Claims about the quadrature and the solver *)

Section SolverClaims.

Variable R : realFieldType.
Variable leggauss : nat -> seq (R * R).
Implicit Types (F : R -> R) (t y Y : seq R) (n q : nat).

Lemma solve_lin_nil (y0 : R) F q :
  (0 < q)%N -> solve_lin leggauss y0 F [::] q = Raise IndexError.
Proof.
case: q => [|q] // _; rewrite /solve_lin /= sub0r mulN1r.
have -> : - q.+1%:Z + 1 = - q%:Z by rewrite intS opprD addrAC addNr add0r.
by case: q.
Qed.

(** C6: for the coefficient function [F = 0], a strictly increasing mesh
    of at least two nodes and a positive degree, the solver returns a
    nodal vector of length [N*q+1] every entry of which is the initial
    value (the quadrature rule has distinct nodes and positive weights,
    as Gauss-Legendre rules have). *)
Theorem solve_lin_constant (y0 : R) t q :
  mesh t -> (1 < size t)%N -> (0 < q)%N ->
  positive_rule (leggauss (5 * q)) (5 * q) ->
  exists2 y, solve_lin leggauss y0 (fun=> 0) t q = Ok y
           & size y = ((size t).-1 * q + 1)%N /\ all (pred1 y0) y.
Proof.
move=> t_mesh t_gt1 q_gt0 rule_pos.
exists (nseq ((size t).-1 * q + 1) y0).
  by apply: solve_lin_zero => //; apply: ltnW.
by rewrite size_nseq all_pred1_nseq.
Qed.

(** C7: a pass of the loop writes the global indices [n*q+1 .. (n+1)*q]
    only; whenever the solver returns, the vector has length [N*q+1] and
    its entry at index 0 is the initial value; and it does return when
    every local system is invertible. *)
Theorem solve_lin_initial_value (y0 : R) F t q :
  (0 < q)%N -> (0 < size t)%N ->
  [/\ forall n y y', solve_lin_step leggauss F t q n y = Ok y' ->
        size y' = size y
        /\ forall k, ~~ (n * q < k <= n.+1 * q)%N -> y'`_k = y`_k,
      forall y, solve_lin leggauss y0 F t q = Ok y ->
        size y = ((size t).-1 * q + 1)%N /\ y`_0 = y0
    & (forall n, (n < (size t).-1)%N ->
         rsubmx (local_matrix leggauss F t`_n t`_n.+1 q) \in unitmx) ->
      exists2 y, solve_lin leggauss y0 F t q = Ok y
               & size y = ((size t).-1 * q + 1)%N /\ y`_0 = y0].
Proof.
move=> q_gt0 t_gt0; split=> [n y y'|y|A_unit].
- exact: solve_lin_step_frame.
- exact: solve_lin_shape.
- have [y run] := solve_lin_total y0 t_gt0 q_gt0 A_unit.
  by exists y => //; apply: solve_lin_shape run.
Qed.

(** C8: a nodal vector returned by the solver, evaluated at a mesh node,
    gives back the value stored for that node; at the final node the last
    stored value is returned directly. *)
Theorem evalfunc_roundtrip (y0 : R) F t q Y :
  mesh t -> (0 < q)%N -> solve_lin leggauss y0 F t q = Ok Y ->
  (forall i, (i < size t)%N -> evalfunc Y t q t`_i = Ok Y`_(q * i))
  /\ evalfunc Y t q (last 0 t) = getitem Y (-1).
Proof.
move=> t_mesh q_gt0 run.
have t_gt0 : (0 < size t)%N.
  by case: t run {t_mesh} => //; rewrite solve_lin_nil.
have [size_Y _] := solve_lin_shape t_gt0 q_gt0 run.
split=> [i i_t|]; last exact: evalfunc_last.
move: i_t; rewrite -[X in (_ < X)%N]prednK // ltnS leq_eqVlt.
case/orP=> [/eqP->|i_N].
  rewrite nth_last evalfunc_last // (getitem_last 0) ?size_Y ?addn1 //.
  by rewrite -nth_last size_Y addn1 /= mulnC.
apply: evalfunc_node => //.
by rewrite size_Y addn1 ltnS addnC -mulnS mulnC leq_mul2r i_N orbT.
Qed.

End SolverClaims.

(** ** Instances over the rationals *)

Section RationalInstances.


Lemma integral_widen (R : realFieldType) (p : {poly R}) (a b : R) (n : nat) :
  (size p <= n)%N ->
  integral p a b = \sum_(i < n) p`_i * (b ^+ i.+1 - a ^+ i.+1) / i.+1%:R.
Proof.
move=> p_n; rewrite /integral.
rewrite -(big_mkord xpredT (fun i => p`_i * (b ^+ i.+1 - a ^+ i.+1) / i.+1%:R)).
rewrite -[in RHS](big_mkord xpredT
                    (fun i => p`_i * (b ^+ i.+1 - a ^+ i.+1) / i.+1%:R)).
rewrite [RHS](big_cat_nat (n := size p)) //= [X in _ + X]big_nat_cond.
rewrite [X in _ + X]big1 ?addr0 // => i /andP[/andP[p_i _] _].
by rewrite nth_default // !mul0r.
Qed.

Lemma midpoint_rule_exact1 : exact_rule (midpoint_rule 1) 1.
Proof.
split=> // p p_2; rewrite (integral_widen _ _ p_2).
rewrite /midpoint_rule /= big_seq1 /= !big_ord_recl big_ord0 /=.
have -> : (2 * 0 + 1)%:R / 1 - 1 = 0 :> rat by apply/eqP.
by rewrite horner_coef0 /bump /=; field.
Qed.

Lemma midpoint_rule_positive5 : positive_rule (midpoint_rule 5) 5.
Proof. by vm_compute. Qed.

Lemma GaussQuad_exact_witness :
  GaussQuad midpoint_rule 0 2 1 (horner ('X + 1%:P))
  = integral ('X + 1%:P) 0 2.
Proof.
apply: GaussQuad_exact => //; first exact: midpoint_rule_exact1.
by rewrite size_XaddC.
Defined.

Lemma solve_lin_constant_witness :
  exists2 y, solve_lin midpoint_rule 3%:Q (fun=> 0) [:: 0%:Q; 1%:Q] 1 = Ok y
           & size y = 2 /\ all (pred1 3%:Q) y.
Proof.
by apply: solve_lin_constant => //; exact: midpoint_rule_positive5.
Defined.

Lemma solve_lin_initial_value_witness :
  exists2 y, solve_lin midpoint_rule 3%:Q (fun=> 0) [:: 0%:Q; 1%:Q] 1 = Ok y
           & size y = 2 /\ y`_0 = 3%:Q.
Proof.
have [// | // | _ _ returns] :=
  @solve_lin_initial_value _ midpoint_rule 3%:Q (fun=> 0) [:: 0%:Q; 1%:Q] 1.
apply: returns => -[|n] // _.
by apply: local_matrix0_unit => //; exact: midpoint_rule_positive5.
Defined.

Lemma evalfunc_roundtrip_witness :
  (forall i, (i < 2)%N ->
     evalfunc [:: 3%:Q; 3%:Q] [:: 0%:Q; 1%:Q] 1 [:: 0%:Q; 1%:Q]`_i
     = Ok [:: 3%:Q; 3%:Q]`_(1 * i))
  /\ evalfunc [:: 3%:Q; 3%:Q] [:: 0%:Q; 1%:Q] 1 1%:Q
     = getitem [:: 3%:Q; 3%:Q] (-1).
Proof.
have run : solve_lin midpoint_rule 3%:Q (fun=> 0) [:: 0%:Q; 1%:Q] 1
           = Ok [:: 3%:Q; 3%:Q].
  by rewrite solve_lin_zero //; exact: midpoint_rule_positive5.
have t_mesh : mesh [:: 0%:Q; 1%:Q] by vm_compute.
exact: (@evalfunc_roundtrip _ midpoint_rule 3%:Q (fun=> 0) [:: 0%:Q; 1%:Q] 1
          [:: 3%:Q; 3%:Q] t_mesh isT run).
Defined.

End RationalInstances.

(** ** More on the bases and the evaluators *)

Section BasisProperties.

Variable R : realFieldType.
Implicit Types (a b x : R) (n q i j : nat) (Y t : seq R) (p : {poly R}).

(** X1: The trial functions are cardinal: the [j]-th one is 1 at node [j]
    and 0 at every other node of the subinterval. *)
Theorem Lagr_cardinal a b n i j :
  a != b -> (i <= n)%N -> (j <= n)%N ->
  Lagr a b n j (linspace a b n.+1)`_i = (i == j)%:R.
Proof. exact: Lagr_node. Qed.

(** X3: [Lagr] is a polynomial of degree at most [n] in [x] and [dLagr] is
    its derivative. *)
Theorem dLagr_is_derivative a b n j :
  a != b -> (j <= n)%N ->
  exists2 P : {poly R}, (size P <= n.+1)%N
    & forall x, Lagr a b n j x = P.[x] /\ dLagr a b n j x = P^`().[x].
Proof.
move=> _ j_n; exists (Lagr_poly a b n j); first exact: size_Lagr_poly.
by move=> x; rewrite horner_Lagr_poly horner_deriv_Lagr_poly.
Qed.

Lemma sum_dLagr a b n x : a != b -> \sum_(j < n.+1) dLagr a b n j x = 0.
Proof.
move=> a_b; rewrite -[RHS](horner0 x) -(derivC 1) polyC1.
rewrite -(sum_Lagr_poly n a_b) raddf_sum /= horner_sum.
by apply: eq_bigr => j _; rewrite horner_deriv_Lagr_poly.
Qed.

(** X2: The trial functions of a subinterval sum to 1 at every point and
    their derivatives to 0. *)
Theorem Lagr_partition_of_unity a b n x :
  a != b ->
  \sum_(j < n.+1) Lagr a b n j x = 1 /\ \sum_(j < n.+1) dLagr a b n j x = 0.
Proof.
move=> a_b; split; last exact: sum_dLagr.
have /(congr1 (horner^~ x)) := sum_Lagr_poly n a_b.
rewrite horner_sum hornerC => <-.
by apply: eq_bigr => j _; rewrite horner_Lagr_poly.
Qed.

(** X4: The test functions are cardinal on their own [q] nodes; for [q = 1]
    the test function is the constant 1: its value is 1 at every point,
    whatever the index. *)
Theorem TestLagr_cardinal a b q i j :
  a != b -> (i < q)%N -> (j < q)%N ->
  TestLagr a b q j (linspace a b q)`_i = (i == j)%:R
  /\ forall k x, TestLagr a b 1 k x = 1.
Proof.
move=> a_b i_q j_q; split; last by [].
rewrite TestLagrE //.
have q_gt0 : (0 < q)%N by apply: leq_ltn_trans i_q.
rewrite -[in linspace a b q](prednK q_gt0).
by apply: Lagr_node; rewrite // -ltnS prednK.
Qed.

(** X5: The trial functions reproduce every polynomial of degree at most
    [n] from its values at the nodes. *)
Theorem Lagr_reproduces a b n p x :
  a != b -> (size p <= n.+1)%N ->
  \sum_(j < n.+1) p.[(linspace a b n.+1)`_j] * Lagr a b n j x = p.[x].
Proof.
move=> a_b p_n; rewrite [in RHS](Lagr_interpolation a_b p_n) horner_sum.
by apply: eq_bigr => j _; rewrite hornerZ horner_Lagr_poly.
Qed.

End BasisProperties.

Section EvaluatorProperties.

Variable R : realFieldType.
Implicit Types (a b x ans : R) (n q i j : nat) (Y t : seq R).
Implicit Types (p : {poly R}) (basis : R -> R -> nat -> nat -> R -> R).

Lemma accumulate_has_short basis Y t q x i (r : seq nat) ans :
  has (fun j => size Y <= q * i + j)%N r ->
  forM r (fun j ans => let! y := item Y (q * i + j) in
                       Ok (ans + y * basis t`_i t`_i.+1 q j x)) ans
  = Raise IndexError.
Proof.
elim: r ans => [|j r IH] ans //=; case: leqP => [short _|long /= short].
  by rewrite item_oversize.
by rewrite (item_nth 0) //= IH.
Qed.

Lemma accumulate_short basis Y t q x i ans :
  (size Y <= q * i + q)%N ->
  accumulate basis Y t q x i ans = Raise IndexError.
Proof.
move=> short; apply: accumulate_has_short; apply/hasP; exists q => //.
by rewrite mem_iota /= add0n.
Qed.

(** The local interpolant of [Y] on subinterval [i]. *)
Lemma accumulate_local basis Y t q x i :
  accumulate basis Y t q x i 0
  = if (q * i + q < size Y)%N
    then Ok (\sum_(j < q.+1) Y`_(q * i + j) * basis t`_i t`_i.+1 q j x)
    else Raise IndexError.
Proof.
case: ltnP => [long|short]; last exact: accumulate_short.
rewrite accumulateE // add0r; congr Ok.
by rewrite -[RHS](big_mkord xpredT
     (fun j => Y`_(q * i + j) * basis t`_i t`_i.+1 q j x)) /index_iota subn0.
Qed.

Lemma evalfunc_local Y t q x i :
  mesh t -> (i < (size t).-1)%N -> inside t i x ->
  evalfunc Y t q x
  = if (q * i + q < size Y)%N
    then Ok (\sum_(j < q.+1) Y`_(q * i + j) * Lagr t`_i t`_i.+1 q j x)
    else Raise IndexError.
Proof.
move=> t_mesh i_t x_in; rewrite /evalfunc.
have t_gt0 : (0 < size t)%N by case: (size t) i_t.
have x_last : x < last 0 t.
  case/andP: x_in => _ /lt_le_trans; apply.
  by rewrite -nth_last mesh_leq // ?ltn_predL // -ltnS prednK.
rewrite (getitem_last 0) //= (lt_eqF x_last).
by rewrite (piecewise_inside _ _ _ _ t_mesh i_t x_in) accumulate_local.
Qed.

Lemma evalderiv_local Y t q x i :
  mesh t -> (i < (size t).-1)%N -> inside t i x ->
  evalderiv Y t q x
  = if (q * i + q < size Y)%N
    then Ok (\sum_(j < q.+1) Y`_(q * i + j) * dLagr t`_i t`_i.+1 q j x)
    else Raise IndexError.
Proof.
move=> t_mesh i_t x_in; rewrite /evalderiv.
by rewrite (piecewise_inside _ _ _ _ t_mesh i_t x_in) accumulate_local.
Qed.

(** X6: At a point of subinterval [i] of a mesh the evaluators read the
    [q+1] nodal values of that subinterval only: [evalfunc] returns
    their combination with the trial functions, [evalderiv] with the
    derivatives of the trial functions, and both fail with [IndexError]
    when [Y] does not reach index [q*i+q]. *)
Theorem evaluators_inside Y t q x i :
  mesh t -> (i < (size t).-1)%N -> inside t i x ->
  evalfunc Y t q x
  = (if (q * i + q < size Y)%N
     then Ok (\sum_(j < q.+1) Y`_(q * i + j) * Lagr t`_i t`_i.+1 q j x)
     else Raise IndexError)
  /\ evalderiv Y t q x
     = (if (q * i + q < size Y)%N
        then Ok (\sum_(j < q.+1) Y`_(q * i + j) * dLagr t`_i t`_i.+1 q j x)
        else Raise IndexError).
Proof.
move=> t_mesh i_t x_in.
by rewrite (evalfunc_local _ _ t_mesh i_t) // (evalderiv_local _ _ t_mesh i_t).
Qed.

(** Every point of the half-open span lies in some subinterval. *)
Lemma span_inside t x :
  t`_0 <= x < last 0 t ->
  exists2 i, (i < (size t).-1)%N & inside t i x.
Proof.
case/andP=> t0_x x_last; pose k := find (fun v => x < v) t.
have has_k : has (fun v => x < v) t.
  apply/hasP; exists (last 0 t) => //.
  case: t t0_x x_last {k} => [|v t] /=; last by rewrite mem_last.
  by move=> x_ge0; rewrite ltNge x_ge0.
have k_t : (k < size t)%N by rewrite -has_find.
have x_k : x < t`_k := nth_find 0 has_k.
have k_gt0 : (0 < k)%N.
  by rewrite lt0n; apply: contraTneq x_k => ->; rewrite -leNgt.
exists k.-1; first by rewrite -ltnS !prednK // (leq_ltn_trans _ k_t).
rewrite /inside prednK // x_k andbT leNgt.
have := @before_find _ 0 (fun v => x < v) t k.-1.
by rewrite -/k ltn_predL k_gt0 => ->.
Qed.

Lemma shaped_reach Y t q i :
  size Y = ((size t).-1 * q + 1)%N -> (i < (size t).-1)%N ->
  (q * i + q < size Y)%N.
Proof.
by move=> -> i_t; rewrite addn1 ltnS addnC -mulnS mulnC leq_mul2r i_t orbT.
Qed.

Lemma evalderiv_ok Y t q x :
  mesh t -> size Y = ((size t).-1 * q + 1)%N -> is_ok (evalderiv Y t q x).
Proof.
move=> t_mesh size_Y.
have [x_out|] := boolP ((x < t`_0) || (last 0 t <= x)).
  by rewrite evalderiv_outside.
rewrite negb_or -leNgt -ltNge => x_span.
have [i i_t x_in] := span_inside x_span.
by rewrite (evalderiv_local _ _ t_mesh i_t x_in) (shaped_reach size_Y).
Qed.

Lemma evalfunc_ok Y t q x :
  mesh t -> (0 < size t)%N -> size Y = ((size t).-1 * q + 1)%N ->
  is_ok (evalfunc Y t q x).
Proof.
move=> t_mesh t_gt0 size_Y.
have [->|x_last] := eqVneq x (last 0 t).
  by rewrite evalfunc_last // (getitem_last 0) // size_Y addn1.
have [x_out|] := boolP ((x < t`_0) || (last 0 t < x)).
  by rewrite evalfunc_outside.
rewrite negb_or -leNgt -leNgt => /andP[t0_x x_le].
have x_span : t`_0 <= x < last 0 t by rewrite t0_x lt_neqAle x_last.
have [i i_t x_in] := span_inside x_span.
by rewrite (evalfunc_local _ _ t_mesh i_t x_in) (shaped_reach size_Y).
Qed.

(** X7: Polynomial reproduction: from the nodal samples of a polynomial of
    degree at most [q] on a mesh, [evalfunc] returns the value of the
    polynomial at every point of the span, and [evalderiv] the value of
    its derivative at every point of the span but the last node. *)
Theorem evaluators_reproduce p Y t q x :
  mesh t -> (1 < size t)%N -> (0 < q)%N -> (size p <= q.+1)%N ->
  samples p Y t q -> t`_0 <= x <= last 0 t ->
  evalfunc Y t q x = Ok p.[x]
  /\ (x != last 0 t -> evalderiv Y t q x = Ok p^`().[x]).
Proof.
move=> t_mesh t_gt1 q_gt0 p_q [size_Y Y_p] /andP[t0_x x_last].
have N_gt0 : (0 < (size t).-1)%N by rewrite -ltnS prednK // ltnW.
have [->|x_ne] := eqVneq x (last 0 t).
  split=> //; rewrite evalfunc_last ?(ltnW t_gt1) //.
  rewrite (getitem_last 0) ?size_Y ?addn1 // -nth_last size_Y addn1 /=.
  have -> : ((size t).-1 * q = q * (size t).-2 + q)%N.
    by rewrite mulnC addnC -mulnS prednK.
  rewrite Y_p ?ltn_predL // linspace_last // prednK // nth_last.
  by [].
have [i i_t x_in] : exists2 i, (i < (size t).-1)%N & inside t i x.
  by apply: span_inside; rewrite t0_x lt_neqAle x_ne.
have ti_ne : t`_i != t`_i.+1 by rewrite lt_eqF // mesh_ltn // -ltn_predRL.
have i_Y : (q * i + q < size Y)%N by apply: shaped_reach size_Y i_t.
rewrite (evalfunc_local _ _ t_mesh i_t x_in) i_Y.
rewrite (evalderiv_local _ _ t_mesh i_t x_in) i_Y.
split=> [|_]; congr Ok.
  rewrite [in RHS](Lagr_interpolation ti_ne p_q) horner_sum.
  by apply: eq_bigr => j _; rewrite hornerZ horner_Lagr_poly Y_p // -ltnS.
rewrite [in RHS](Lagr_interpolation ti_ne p_q) raddf_sum /= horner_sum.
apply: eq_bigr => j _; rewrite derivZ hornerZ horner_deriv_Lagr_poly.
by rewrite Y_p // -ltnS.
Qed.

(** X8: On a mesh, with [Y] of the length the solver produces, both
    evaluators return a number at every point: they never fail. *)
Theorem evaluators_defined Y t q x :
  mesh t -> (0 < size t)%N -> size Y = ((size t).-1 * q + 1)%N ->
  is_ok (evalfunc Y t q x) && is_ok (evalderiv Y t q x).
Proof. by move=> t_mesh t_gt0 size_Y; rewrite evalfunc_ok ?evalderiv_ok. Qed.

End EvaluatorProperties.

(** ** More on the quadrature and the solver *)

Section QuadratureProperties.

Variable R : realFieldType.
Variable leggauss : nat -> seq (R * R).
Implicit Types (f g : R -> R) (n : nat) (a b c : R).

(** X9: The quadrature is linear in the integrand. *)
Theorem GaussQuad_linear a b n c f g :
  GaussQuad leggauss a b n (fun x => c * f x + g x)
  = c * GaussQuad leggauss a b n f + GaussQuad leggauss a b n g.
Proof.
rewrite !GaussQuadE mulr_sumr -big_split /=.
by apply: eq_bigr => pw _; rewrite mulrDr mulrCA.
Qed.

(** X10: With nonnegative weights and [a <= b] the quadrature is monotone in
    the integrand; over an interval of length 0 it is 0. *)
Theorem GaussQuad_monotone a b n f g :
  a <= b -> all (fun pw => 0 <= pw.2) (leggauss n) ->
  (forall x, f x <= g x) ->
  GaussQuad leggauss a b n f <= GaussQuad leggauss a b n g
  /\ GaussQuad leggauss a a n f = 0.
Proof.
move=> a_b /allP w_ge0 f_g; split; last first.
  by rewrite GaussQuadE big1 // => pw _; rewrite subrr !mul0r.
rewrite !GaussQuadE big_seq [leRHS]big_seq.
apply: ler_sum => pw /w_ge0 pw_ge0; apply: ler_wpM2l => //.
by rewrite mulr_ge0 // divr_ge0 ?subr_ge0 // ler0n.
Qed.

End QuadratureProperties.

Section SolverProperties.

Variable R : realFieldType.
Variable leggauss : nat -> seq (R * R).
Implicit Types (F : R -> R) (y t : seq R) (q n k m : nat) (c : R).

Lemma solve_lin_stepE F t q n y :
  (n.+1 * q < size y)%N ->
  solve_lin_step leggauss F t q n y
  = if solvable leggauss F t q n
    then Ok (take (n * q + 1) y ++ local_solution leggauss F t q n y
             ++ drop (n * q + 1 + q) y)
    else Raise LinAlgError.
Proof.
move=> n_y; have nq_y : (n * q < size y)%N.
  by apply: leq_ltn_trans n_y; rewrite leq_mul2r leqnSn orbT.
rewrite /solve_lin_step (item_nth 0) //= /linalg_solve /solvable.
rewrite /local_solution.
case: ifP => //= _; rewrite /set_slice size_map size_enum_ord.
by rewrite addnAC addn1 addnC -mulSn n_y.
Qed.

(** X11: Degree 0 is refused by the quadrature rule, an empty mesh by the
    assignment of the initial value, and a mesh of one node gives the
    initial value alone. *)
Theorem solve_lin_edge_cases (y0 : R) F t q (a : R) :
  [/\ solve_lin leggauss y0 F t 0 = Raise ValueError,
      (0 < q)%N -> solve_lin leggauss y0 F [::] q = Raise IndexError
    & (0 < q)%N -> solve_lin leggauss y0 F [:: a] q = Ok [:: y0]].
Proof.
split=> [|q_gt0|q_gt0]; first by rewrite /solve_lin mulr0 add0r.
  exact: solve_lin_nil.
by rewrite solve_lin_unfold.
Qed.

Lemma solve_lin_loop F t q m k y :
  (m + k = (size t).-1)%N -> size y = ((size t).-1 * q + 1)%N ->
  match forM (iota m k) (solve_lin_step leggauss F t q) y with
  | Ok _ => forall n, (m <= n < m + k)%N -> solvable leggauss F t q n
  | Raise e => e = LinAlgError
               /\ exists2 n, (m <= n < m + k)%N & ~~ solvable leggauss F t q n
  end.
Proof.
elim: k m y => [|k IH] m y /= m_k size_y.
  by move=> n; rewrite addn0 leqNgt andbC; case: ltnP.
have m_y : (m.+1 * q < size y)%N.
  by rewrite size_y addn1 ltnS leq_mul2r -m_k -addSnnS leq_addr orbT.
case step: solve_lin_step (solve_lin_stepE F t m_y) => [y'|e] /=.
  case: ifP => // m_ok _; have [size_y' _] := solve_lin_step_frame step.
  have := IH m.+1 y'; rewrite addSnnS size_y' => /(_ m_k size_y).
  case: forM => [_ rest n|e [-> [n n_in n_bad]]].
    rewrite leq_eqVlt andb_orl => /orP[/andP[/eqP<-]|] //.
    exact: rest.
  by split=> //; exists n => //; case/andP: n_in => /ltnW->.
case: ifP => // /negbT m_bad [<-]; split=> //; exists m => //.
by rewrite leqnn -addSnnS leq_addr.
Qed.

(** X12: On a nonempty mesh with [q >= 1] the solver returns only when
    every local system is invertible; its only failure is
    [LinAlgError], raised when some local system is singular. *)
Theorem solve_lin_outcome (y0 : R) F t q :
  mesh t -> (0 < size t)%N -> (0 < q)%N ->
  match solve_lin leggauss y0 F t q with
  | Ok y =>
      forall n, (n < (size t).-1)%N ->
        rsubmx (local_matrix leggauss F t`_n t`_n.+1 q) \in unitmx
  | Raise e =>
      e = LinAlgError
      /\ exists2 n, (n < (size t).-1)%N
           & rsubmx (local_matrix leggauss F t`_n t`_n.+1 q) \notin unitmx
  end.
Proof.
move=> _ t_gt0 q_gt0; rewrite solve_lin_unfold //.
have := @solve_lin_loop F t q 0 (size t).-1 (y0 :: nseq ((size t).-1 * q) 0).
rewrite add0n /= size_nseq addn1 => /(_ erefl erefl).
by case: forM.
Qed.

End SolverProperties.

Section Galerkin.

Variable R : realFieldType.
Variable leggauss : nat -> seq (R * R).
Implicit Types (F : R -> R) (y t : seq R) (q n k m : nat) (c : R).

(** A loop invariant indexed by the pass. *)
Lemma forM_iota_invariant (S : Type) (P : nat -> S -> Prop)
    (body : nat -> S -> result S) m k (s s' : S) :
  (forall n s1 s2, (m <= n < m + k)%N ->
     P n s1 -> body n s1 = Ok s2 -> P n.+1 s2) ->
  P m s -> forM (iota m k) body s = Ok s' -> P (m + k)%N s'.
Proof.
elim: k m s => [|k IH] m s step Pm /=; first by case=> <-; rewrite addn0.
case body_m: (body m s) => [s1|] //= run; rewrite addnS -addSn.
apply: IH run => [n s2 s3 /andP[m_n n_k]|].
  by apply: step; rewrite (ltnW m_n) -addSnnS.
by apply: step body_m => //; rewrite leqnn -addSnnS leq_addr.
Qed.

Lemma solve_lin_step_balanced F t q n y y' :
  (n.+1 * q < size y)%N ->
  solve_lin_step leggauss F t q n y = Ok y' -> balanced leggauss F t q n y'.
Proof.
move=> n_y; rewrite solve_lin_stepE //; case: ifP => // A_unit [<-] j.
set a := local_matrix _ _ _ _ _; set s := local_solution _ _ _ _ _ _.
have nq_y : (n * q < size y)%N.
  by rewrite (leq_ltn_trans _ n_y) // leq_mul2r leqnSn orbT.
have size_s : size s = q by rewrite size_map size_enum_ord.
rewrite big_split_ord big_ord1 /= addn0 addn1 nth_cat size_takel // leqnn.
rewrite nth_take //.
have -> : \sum_(i < q) a j (rshift 1 i)
                * (take (n * q).+1 y ++ s ++ drop ((n * q).+1 + q) y)`_
                    (n * q + (1 + i))
          = (rsubmx a *m (invmx (rsubmx a) *m (- y`_(n * q) *: lsubmx a)))
              j ord0.
  rewrite mxE; apply: eq_bigr => i _; rewrite [rsubmx a j i]mxE; congr (_ * _).
  rewrite nth_cat size_takel // add1n addnS ltnNge ltnS leq_addr /=.
  rewrite subSS addKn nth_cat size_s ltn_ord.
  by rewrite (nth_map i) ?size_enum_ord // nth_ord_enum.
by rewrite mulKVmx // !mxE mulNr mulrC; apply/eqP; rewrite subr_eq0.
Qed.

Lemma solve_lin_balanced (y0 : R) F t q y n :
  (0 < size t)%N -> (0 < q)%N -> solve_lin leggauss y0 F t q = Ok y ->
  (n < (size t).-1)%N -> balanced leggauss F t q n y.
Proof.
move=> t_gt0 q_gt0; rewrite solve_lin_unfold // => run n_N.
set N := (size t).-1 in run n_N *.
pose P m y1 := size y1 = (N * q + 1)%N
               /\ forall n1, (n1 < m)%N -> balanced leggauss F t q n1 y1.
suff [_] : P (0 + N)%N y by apply.
apply: forM_iota_invariant run; last by rewrite /P /= size_nseq addn1.
move=> m y1 y2; rewrite add0n /= => m_N [size_y1 bal] step.
have [size_y2 frame] := solve_lin_step_frame step.
have m_y1 : (m.+1 * q < size y1)%N.
  by rewrite size_y1 addn1 ltnS leq_mul2r m_N orbT.
split=> [|n1]; first by rewrite size_y2.
rewrite ltnS leq_eqVlt => /orP[/eqP->|n1_m].
  exact: solve_lin_step_balanced step.
move=> j; rewrite -[RHS](bal _ n1_m j); apply: eq_bigr => i _.
rewrite frame // negb_and -leqNgt (@leq_trans (n1.+1 * q)) //.
  by rewrite mulSn [(q + _)%N]addnC leq_add2l -ltnS; case: i.
by rewrite leq_mul2r n1_m orbT.
Qed.

(** X13: Galerkin orthogonality: on every subinterval the residual
    [U' - F * U] of the returned piecewise polynomial [U] is orthogonal,
    in the quadrature the solver uses, to each of the [q] test
    functions. *)
Theorem solve_lin_galerkin (y0 : R) F t q y n j :
  mesh t -> (0 < q)%N -> solve_lin leggauss y0 F t q = Ok y ->
  (n < (size t).-1)%N -> (j < q)%N ->
  GaussQuad leggauss t`_n t`_n.+1 (5 * q)
    (fun x =>
       TestLagr t`_n t`_n.+1 q j x
       * (\sum_(i < q.+1) y`_(n * q + i) * dLagr t`_n t`_n.+1 q i x
          - F x * \sum_(i < q.+1) y`_(n * q + i) * Lagr t`_n t`_n.+1 q i x))
  = 0.
Proof.
move=> _ q_gt0 run n_N j_q.
have t_gt0 : (0 < size t)%N by case: (size t) n_N.
rewrite -[RHS](solve_lin_balanced t_gt0 q_gt0 run n_N (Ordinal j_q)).
rewrite GaussQuadE.
under [RHS]eq_bigr => i _ do rewrite mxE GaussQuadE mulr_suml.
rewrite exchange_big /=; apply: eq_bigr => pw _.
rewrite [F _ * _]mulr_sumr -sumrB !mulr_sumr; apply: eq_bigr => i _.
rewrite [F _ * _]mulrCA -mulrBr [_ * (y`__ * _)]mulrCA.
by rewrite [LHS]mulrCA [RHS]mulrC.
Qed.

Lemma item_map (A B : Type) (h : A -> B) (s : seq A) k :
  item [seq h v | v <- s] k = (let! v := item s k in Ok (h v)).
Proof. by elim: s k => [|v s IH] [|k] /=. Qed.

Lemma set_slice_map (h : R -> R) y (lo : nat) (s : seq R) :
  set_slice [seq h v | v <- y] lo [seq h v | v <- s]
  = (let! y' := set_slice y lo s in Ok [seq h v | v <- y']).
Proof.
rewrite /set_slice !size_map; case: ifP => _ /=.
  by rewrite !map_cat map_take map_drop.
by case: ifP.
Qed.

Lemma solve_lin_step_scale F t q n y c :
  solve_lin_step leggauss F t q n [seq c * v | v <- y]
  = (let! y' := solve_lin_step leggauss F t q n y in
     Ok [seq c * v | v <- y']).
Proof.
rewrite /solve_lin_step item_map; case: item => //= yn.
rewrite /linalg_solve; case: ifP => //= _.
rewrite -set_slice_map -map_comp; congr set_slice.
apply: eq_map => u /=.
by rewrite -mulrN -scalerA -scalemxAr mxE.
Qed.

(** X14: The solution is homogeneous in the initial value: scaling [y0] by
    [c] scales every entry of the returned vector by [c]. *)
Theorem solve_lin_scale (y0 : R) F t q y c :
  mesh t -> solve_lin leggauss y0 F t q = Ok y ->
  solve_lin leggauss (c * y0) F t q = Ok [seq c * v | v <- y].
Proof.
move=> _; rewrite /solve_lin; case: (range_len _) => [|k] //=.
case: leggauss_call => //= _.
have -> : c * y0 :: nseq k 0 = [seq c * v | v <- y0 :: nseq k 0].
  by rewrite /= map_nseq mulr0.
elim: (iota _ _) (y0 :: nseq k 0) => [|n r IH] y1 /=; first by case=> <-.
by rewrite solve_lin_step_scale; case: solve_lin_step.
Qed.

End Galerkin.

Section Trapezoid.

Variable R : realFieldType.
Variable leggauss : nat -> seq (R * R).
Implicit Types (t y : seq R) (n : nat) (a b u v lam : R).

Lemma GaussQuad_ext a b n (f g : R -> R) :
  f =1 g -> GaussQuad leggauss a b n f = GaussQuad leggauss a b n g.
Proof. by move=> f_g; rewrite !GaussQuadE; apply: eq_bigr => pw _; rewrite f_g. Qed.

(** A rule exact for the affine functions integrates them exactly over
    every interval. *)
Lemma GaussQuad_affine a b n u v :
  affine_rule (leggauss n) ->
  GaussQuad leggauss a b n (fun x => u * x + v)
  = (b - a) * (u * ((a + b) / 2) + v).
Proof.
case/andP=> /eqP sum_w /eqP sum_wp; rewrite GaussQuadE.
set C := (b - a) / 2; set m := (a + b) / 2.
have -> : \sum_(pw <- leggauss n) C * pw.2 * (u * (C * pw.1 + m) + v)
          = C * u * C * (\sum_(pw <- leggauss n) pw.2 * pw.1)
            + C * (u * m + v) * (\sum_(pw <- leggauss n) pw.2).
  rewrite !mulr_sumr -big_split /=; apply: eq_bigr => pw _.
  by ring.
by rewrite sum_w sum_wp mulr0 add0r /C /m; field.
Qed.

Lemma Lagr1E a b x :
  a != b ->
  [/\ TestLagr a b 1 0 x = 1,
      Lagr a b 1 0 x = (b - x) / (b - a),
      Lagr a b 1 1 x = (x - a) / (b - a),
      dLagr a b 1 0 x = - 1 / (b - a)
    & dLagr a b 1 1 x = 1 / (b - a)].
Proof.
move=> a_b; have ba_neq0 : b - a != 0 by rewrite subr_eq0 eq_sym.
have ab_neq0 : a - b != 0 by rewrite subr_eq0.
rewrite /TestLagr /Lagr /dLagr /linspace /= /lagr_step /=.
rewrite !mul0r !add0r !mul1r !divr1 !addrNK.
by split=> //; field; rewrite ?ba_neq0 ?ab_neq0.
Qed.

(** X15: For [q = 1] and a constant coefficient [lam] the solver is the
    trapezoidal (Crank-Nicolson) recursion on every subinterval of
    length [h]: [y[n+1] * (1 - lam*h/2) = y[n] * (1 + lam*h/2)]. *)
Theorem solve_lin_trapezoid (y0 lam : R) t y n :
  mesh t -> affine_rule (leggauss 5) ->
  solve_lin leggauss y0 (fun=> lam) t 1 = Ok y -> (n < (size t).-1)%N ->
  y`_n.+1 * (1 - lam * (t`_n.+1 - t`_n) / 2)
  = y`_n * (1 + lam * (t`_n.+1 - t`_n) / 2).
Proof.
move=> t_mesh rule run n_N.
have t_gt0 : (0 < size t)%N by case: (size t) n_N.
have a_b : t`_n != t`_n.+1 by rewrite lt_eqF // mesh_ltn // -ltn_predRL.
have ba_neq0 : t`_n.+1 - t`_n != 0 by rewrite subr_eq0 eq_sym.
set a := t`_n in a_b ba_neq0 *; set b := t`_n.+1 in a_b ba_neq0 *.
have entry0 : local_matrix leggauss (fun=> lam) a b 1 ord0 (lshift 1 ord0)
              = - 1 - lam * (b - a) / 2.
  rewrite mxE muln1 /=.
  rewrite (@GaussQuad_ext _ _ _ _
     (fun x => (lam / (b - a)) * x + (- 1 / (b - a) - lam * b / (b - a)))).
    by move=> x; have [-> -> _ -> _] := Lagr1E x a_b; field.
  by rewrite GaussQuad_affine //; field.
have entry1 : local_matrix leggauss (fun=> lam) a b 1 ord0 (rshift 1 ord0)
              = 1 - lam * (b - a) / 2.
  rewrite mxE muln1 /= addn0.
  rewrite (@GaussQuad_ext _ _ _ _
     (fun x => (- lam / (b - a)) * x + (1 / (b - a) + lam * a / (b - a)))).
    by move=> x; have [-> _ -> _ ->] := Lagr1E x a_b; field.
  by rewrite GaussQuad_affine //; field.
have := @solve_lin_balanced _ leggauss y0 _ t 1 y n t_gt0 isT run n_N ord0.
rewrite big_split_ord !big_ord1 entry0 entry1 /= muln1 addn0 addn1 => bal.
apply/eqP; rewrite -subr_eq0 -[X in _ == X]bal; apply/eqP.
by ring.
Qed.

End Trapezoid.

(** ** The root-finding steps *)

Section RootSteps.

Variable R : realFieldType.
Implicit Types (x y r a b c : R).

Lemma truedivE x y : y != 0 -> truediv x y = Finite (x / y).
Proof. by rewrite /truediv => /negPf->. Qed.

Lemma sec_method_stepE (y0 y1 x0 x1 : R) r :
  sec_method_step y0 y1 x0 x1 r
  = if y0 == y1 then NotFinite R
    else Finite ((x0 * (y1 - r) - x1 * (y0 - r)) / (y1 - y0)).
Proof.
rewrite /sec_method_step /truediv opprB addrA subrK subr_eq0 eq_sym.
by case: ifP.
Qed.


(** X17: On an affine function with non-zero slope a single secant step from
    two distinct abscissas returns the exact solution of [f x = r]. *)
Theorem sec_method_step_affine (a b x0 x1 : R) r :
  a != 0 -> x0 != x1 ->
  sec_method_step (a * x0 + b) (a * x1 + b) x0 x1 r = Finite ((r - b) / a).
Proof.
move=> a_ne x_ne; rewrite sec_method_stepE (inj_eq (addIr b)).
rewrite (inj_eq (mulfI a_ne)) (negPf x_ne); congr Finite.
have dx_ne : x1 - x0 != 0 by rewrite subr_eq0 eq_sym.
have -> : a * x1 + b - (a * x0 + b) = a * (x1 - x0) by ring.
apply: (mulIf (mulf_neq0 a_ne dx_ne)); rewrite divfK ?mulf_neq0 //.
by rewrite mulrA divfK //; ring.
Qed.

(** X18: With distinct ordinates the step does not depend on the order
    of the two points: both orders return the same number. *)
Theorem sec_method_step_sym (y0 y1 x0 x1 : R) r :
  y0 != y1 ->
  exists2 x2, sec_method_step y0 y1 x0 x1 r = Finite x2
            & sec_method_step y1 y0 x1 x0 r = Finite x2.
Proof.
move=> y_ne; rewrite !sec_method_stepE [y1 == y0]eq_sym (negPf y_ne).
eexists; first by reflexivity.
by rewrite -[in LHS]mulrNN -invrN !opprB.
Qed.

(** X19: When the level lies strictly between the two ordinates the returned
    point lies strictly between the two abscissas. *)
Theorem sec_method_step_between (y0 y1 x0 x1 : R) r :
  x0 < x1 -> (y0 < r < y1) || (y1 < r < y0) ->
  exists2 x2, sec_method_step y0 y1 x0 x1 r = Finite x2 & x0 < x2 < x1.
Proof.
move=> x_lt between; rewrite sec_method_stepE.
have y_ne : y0 != y1.
  case/orP: between => /andP[lo hi]; first by rewrite lt_eqF // (lt_trans lo).
  by rewrite gt_eqF // (lt_trans lo).
rewrite (negPf y_ne); eexists; first by reflexivity.
have dy_ne : y1 - y0 != 0 by rewrite subr_eq0 eq_sym.
pose s := (r - y0) / (y1 - y0).
have -> : (x0 * (y1 - r) - x1 * (y0 - r)) / (y1 - y0) = x0 + s * (x1 - x0).
  apply: (mulIf dy_ne); rewrite divfK // mulrDl /s mulrAC divfK //.
  by ring.
have s_in : 0 < s < 1.
  rewrite /s; case/orP: between => /andP[lo hi].
    have dy_gt0 : 0 < y1 - y0 by rewrite subr_gt0 (lt_trans lo).
    by rewrite ltr_pdivlMr // mul0r subr_gt0 lo ltr_pdivrMr // mul1r ltrD2r.
  have dy_gt0 : 0 < y0 - y1 by rewrite subr_gt0 (lt_trans lo).
  rewrite -[r - y0]opprB -[y1 - y0]opprB divrNN.
  by rewrite ltr_pdivlMr // mul0r subr_gt0 hi ltr_pdivrMr // mul1r ltrD2l ltrN2.
case/andP: s_in => s_gt0 s_lt1.
rewrite ltrDl mulr_gt0 ?subr_gt0 //= -ltrBrDl.
by rewrite -[X in _ < X]mul1r ltr_pM2r ?subr_gt0.
Qed.

Lemma inv_quad_stepE (y0 y1 y2 x0 x1 x2 : R) r :
  inv_quad_step y0 y1 y2 x0 x1 x2 r
  = if [&& y0 != y1, y0 != y2 & y1 != y2]
    then Finite (x0 * (y1 - r) * (y2 - r) / ((y0 - y1) * (y0 - y2))
                 + x1 * (y0 - r) * (y2 - r) / ((y1 - y0) * (y1 - y2))
                 + x2 * (y1 - r) * (y0 - r) / ((y2 - y1) * (y2 - y0)))
    else NotFinite R.
Proof.
rewrite /inv_quad_step /float_add /float_op /truediv.
have diff (u v : R) : u - r - (v - r) = u - v by ring.
rewrite !diff !mulf_eq0 !subr_eq0.
rewrite [y1 == y0]eq_sym [y2 == y1]eq_sym [y2 == y0]eq_sym.
by case: (y0 == y1); case: (y0 == y2); case: (y1 == y2).
Qed.


(** X21: When the three points lie on the graph [x = g y] of a polynomial
    [g] of degree at most 2, the step returns [g r]: inverse quadratic
    interpolation is exact on inverse functions that are quadratic. *)
Theorem inv_quad_step_exact (a b c y0 y1 y2 : R) r :
  uniq [:: y0; y1; y2] ->
  let g y := a * y ^+ 2 + b * y + c in
  inv_quad_step y0 y1 y2 (g y0) (g y1) (g y2) r = Finite (g r).
Proof.
rewrite /= !inE negb_or andbT -andbA => /and3P[y01 y02 y12].
rewrite inv_quad_stepE y01 y02 y12 /=; congr Finite.
have d01 : y0 - y1 != 0 by rewrite subr_eq0.
have d02 : y0 - y2 != 0 by rewrite subr_eq0.
have d12 : y1 - y2 != 0 by rewrite subr_eq0.
have d10 : y1 - y0 != 0 by rewrite subr_eq0 eq_sym.
have d20 : y2 - y0 != 0 by rewrite subr_eq0 eq_sym.
have d21 : y2 - y1 != 0 by rewrite subr_eq0 eq_sym.
by field; rewrite d01 d02 d12 d10 d20 d21.
Qed.

(** X22: A point already at the level [r] is returned as it is. *)
Theorem inv_quad_step_hit (y1 y2 x0 x1 x2 : R) r :
  uniq [:: r; y1; y2] -> inv_quad_step r y1 y2 x0 x1 x2 r = Finite x0.
Proof.
rewrite /= !inE negb_or andbT -andbA => /and3P[y01 y02 y12].
rewrite inv_quad_stepE y01 y02 y12 /=; congr Finite.
have d01 : r - y1 != 0 by rewrite subr_eq0.
have d02 : r - y2 != 0 by rewrite subr_eq0.
have d12 : y1 - y2 != 0 by rewrite subr_eq0.
have d10 : y1 - r != 0 by rewrite subr_eq0 eq_sym.
have d20 : y2 - r != 0 by rewrite subr_eq0 eq_sym.
have d21 : y2 - y1 != 0 by rewrite subr_eq0 eq_sym.
by field; rewrite d01 d02 d12 d10 d20 d21.
Qed.

(** X23: The step does not depend on the order of the three points. *)
Theorem inv_quad_step_sym (y0 y1 y2 x0 x1 x2 : R) r :
  inv_quad_step y0 y1 y2 x0 x1 x2 r = inv_quad_step y1 y0 y2 x1 x0 x2 r
  /\ inv_quad_step y0 y1 y2 x0 x1 x2 r = inv_quad_step y0 y2 y1 x0 x2 x1 r.
Proof.
rewrite !inv_quad_stepE [y1 == y0]eq_sym [y2 == y1]eq_sym.
case y01: (y0 == y1); case y02: (y0 == y2); case y12: (y1 == y2) => //=.
have d01 : y0 - y1 != 0 by rewrite subr_eq0 y01.
have d02 : y0 - y2 != 0 by rewrite subr_eq0 y02.
have d12 : y1 - y2 != 0 by rewrite subr_eq0 y12.
have d10 : y1 - y0 != 0 by rewrite subr_eq0 eq_sym y01.
have d20 : y2 - y0 != 0 by rewrite subr_eq0 eq_sym y02.
have d21 : y2 - y1 != 0 by rewrite subr_eq0 eq_sym y12.
by split; congr Finite; field; rewrite d01 d02 d12 d10 d20 d21.
Qed.

End RootSteps.

(** ** More on the error estimate *)

Section ErrorEstimate.

Variable R : realFieldType.
Variable leggauss : nat -> seq (R * R).
Implicit Types (Y phi ty tphi t Eloc : seq R) (F : R -> R).
Implicit Types (q n i j k m : nat) (E : R).

Lemma first_hit_some (test : nat -> bool) m k i :
  first_hit test (iota m k) = Some i ->
  [/\ (m <= i < m + k)%N, test i & forall j, (m <= j < i)%N -> ~~ test j].
Proof.
elim: k m => [|k IH] m //=; case: ifP => [test_m [<-]|test_m /IH[]].
  split=> // [|j]; first by rewrite leqnn addnS ltnS leq_addr.
  by rewrite leqNgt andbC; case: ltnP.
case/andP=> m_i i_k test_i before; split=> // [|j].
  by rewrite (ltnW m_i) -addSnnS.
rewrite leq_eqVlt => /andP[/orP[/eqP<-|m_j] j_i]; first by rewrite test_m.
by apply: before; rewrite m_j.
Qed.

Lemma first_hit_none (test : nat -> bool) (r : seq nat) :
  first_hit test r = None -> all (fun i => ~~ test i) r.
Proof. by elim: r => [|i r IH] //=; case: ifP => //= _ /IH. Qed.

Lemma first_hit_quiet (test : nat -> bool) (r : seq nat) :
  all (fun i => ~~ test i) r -> first_hit test r = None.
Proof. by elim: r => [|i r IH] //= /andP[/negPf-> /IH]. Qed.

Lemma foldl_addr (z : R) (s : seq R) :
  foldl +%R z s = z + \sum_(e <- s) e.
Proof.
elim: s z => [|e s IH] z /=; first by rewrite big_nil addr0.
by rewrite IH big_cons addrA.
Qed.

(** What the reconciliation binds: the forward mesh, or one of its
    prefixes with the adjoint's final node appended. *)
Lemma reconcile_some ty tphi t :
  reconcile ty tphi = Ok (Some t) ->
  last 0 t = last 0 tphi
  /\ (t = ty /\ last 0 ty = last 0 tphi
      \/ exists2 i, (i < size ty)%N
           & [/\ t = rcons (take i ty) (last 0 tphi),
                 last 0 tphi < ty`_i
               & forall j, (j < i)%N -> ty`_j <= last 0 tphi]).
Proof.
rewrite /reconcile.
have [ty_gt0|] := ltnP 0 (size ty); last first.
  by rewrite leqn0 size_eq0 => /eqP->.
have [tphi_gt0|] := ltnP 0 (size tphi); last first.
  by rewrite leqn0 size_eq0 (getitem_last 0) // => /eqP->.
rewrite !(getitem_last 0) //=; case: eqP => [same [<-]|_].
  by split=> //; left.
case hit: first_hit => [i|] // [<-].
have [/andP[_ i_ty] i_gt before] := first_hit_some hit.
rewrite /= cats1 last_rcons; split=> //; right; exists i => //; split=> // j j_i.
by rewrite leNgt; apply: before.
Qed.

(** X24: A returned estimate has one local contribution per subinterval of
    the returned grid, its total is their sum, and the grid ends at the
    adjoint's final node: it is the forward mesh, or the nodes of the
    forward mesh before the first one beyond that node, followed by that
    node. *)
Theorem get_err_lin_shape Y phi F q (q2 : nat) ty tphi E Eloc t :
  get_err_lin leggauss Y phi F q q2 ty tphi = Ok (E, Eloc, t) ->
  [/\ size Eloc = (size t).-1,
      E = \sum_(e <- Eloc) e,
      last 0 t = last 0 tphi
    & t = ty /\ last 0 ty = last 0 tphi
      \/ exists2 i, (i < size ty)%N
           & [/\ t = rcons (take i ty) (last 0 tphi),
                 last 0 tphi < ty`_i
               & forall j, (j < i)%N -> ty`_j <= last 0 tphi]].
Proof.
move=> run; have grid := get_err_lin_grid run.
have [t_last t_ty] := reconcile_some grid.
move: run; rewrite /get_err_lin grid /=.
case: leggauss_call => [[p w]|] //=.
case loop: forM => [Eloc'|] //= [<- <-]; split=> //; last first.
  by rewrite foldl_addr add0r.
pose P (n : nat) (s : seq R) := size s = (size t).-1.
have : P (0 + (size t).-1)%N Eloc'.
  apply: forM_iota_invariant loop; last by rewrite /P size_nseq.
  move=> n s1 s2; rewrite add0n /= => n_N size_s1.
  case: local_error => [e|] //= [<-].
  by rewrite /P size_set_nth size_s1; apply/maxn_idPr.
by [].
Qed.

(** X25: A forward mesh that ends before the adjoint mesh leaves the grid
    unbound: the call fails with [UnboundLocalError]. *)
Theorem get_err_lin_short_forward_mesh Y phi F q (q2 : nat) ty tphi :
  mesh ty -> (0 < size ty)%N -> (0 < size tphi)%N -> (0 < q)%N ->
  last 0 ty < last 0 tphi ->
  get_err_lin leggauss Y phi F q q2 ty tphi = Raise UnboundLocalError.
Proof.
move=> ty_mesh ty_gt0 tphi_gt0 q_gt0 short.
have grid : reconcile ty tphi = Ok None.
  rewrite /reconcile !(getitem_last 0) //= (lt_eqF short).
  rewrite first_hit_quiet //; apply/allP => i; rewrite mem_iota /= add0n.
  move=> i_ty; rewrite -leNgt (le_trans _ (ltW short)) // -nth_last.
  by rewrite mesh_leq // ?ltn_predL // -ltnS prednK.
rewrite /get_err_lin grid /= /leggauss_call muln_eq0 /=.
by rewrite eqn0Ngt q_gt0.
Qed.

Lemma first_hit_has (test : nat -> bool) (r : seq nat) :
  has test r -> exists i, first_hit test r = Some i.
Proof.
elim: r => [|i r IH] //=; case: ifP => [_ _|_ /= /IH //].
by exists i.
Qed.

(** When the forward mesh reaches the adjoint's final node the
    reconciliation binds a grid. *)
Lemma reconcile_reach ty tphi :
  (0 < size ty)%N -> (0 < size tphi)%N -> last 0 tphi <= last 0 ty ->
  exists t, reconcile ty tphi = Ok (Some t).
Proof.
move=> ty_gt0 tphi_gt0 reach; rewrite /reconcile !(getitem_last 0) //=.
case: eqP => [_|/eqP differ]; first by exists ty.
have [|i ->] := @first_hit_has (fun i => last 0 tphi < ty`_i)
                  (iota 0 (size ty)); last by eexists.
apply/hasP; exists (size ty).-1; first by rewrite mem_iota /= add0n ltn_predL.
by rewrite nth_last lt_neqAle eq_sym differ.
Qed.

Lemma local_error_ok Y phi F q (q2 : nat) ty tphi (p w : seq R) t n (e : R) :
  mesh ty -> mesh tphi -> (0 < size ty)%N -> (0 < size tphi)%N ->
  size Y = ((size ty).-1 * q + 1)%N ->
  size phi = ((size tphi).-1 * q2 + 1)%N ->
  is_ok (local_error Y phi F q q2 ty tphi p w t n e).
Proof.
move=> ty_mesh tphi_mesh ty_gt0 tphi_gt0 size_Y size_phi.
rewrite /local_error; elim: (iota _ _) e => [|k r IH] e //=.
have := @evalderiv_ok _ Y ty q _ ty_mesh size_Y.
move=> /(_ ([seq (t`_n.+1 - t`_n) / 2 * pk + (t`_n + t`_n.+1) / 2
            | pk <- p]`_k)).
case: evalderiv => //= DYL _.
have := @evalfunc_ok _ Y ty q _ ty_mesh ty_gt0 size_Y.
move=> /(_ ([seq (t`_n.+1 - t`_n) / 2 * pk + (t`_n + t`_n.+1) / 2
            | pk <- p]`_k)).
case: evalfunc => //= YL _.
have := @evalfunc_ok _ phi tphi q2 _ tphi_mesh tphi_gt0 size_phi.
move=> /(_ ([seq (t`_n.+1 - t`_n) / 2 * pk + (t`_n + t`_n.+1) / 2
            | pk <- p]`_k)).
by case: evalfunc => //= PL _.
Qed.

(** X26: With both meshes increasing, both vectors of the length the solver
    produces, and a forward mesh that reaches the adjoint's final node,
    the estimate is computed: no step of the call fails. *)
Theorem get_err_lin_defined Y phi F q (q2 : nat) ty tphi :
  mesh ty -> mesh tphi -> (0 < size ty)%N -> (0 < size tphi)%N ->
  (0 < q)%N -> size Y = ((size ty).-1 * q + 1)%N ->
  size phi = ((size tphi).-1 * q2 + 1)%N ->
  last 0 tphi <= last 0 ty ->
  is_ok (get_err_lin leggauss Y phi F q q2 ty tphi).
Proof.
move=> ty_mesh tphi_mesh ty_gt0 tphi_gt0 q_gt0 size_Y size_phi reach.
have [t grid] := reconcile_reach ty_gt0 tphi_gt0 reach.
rewrite /get_err_lin grid /= /leggauss_call muln_eq0 /= eqn0Ngt q_gt0 /=.
elim: (iota _ _) (nseq _ _) => [|n r IH] Eloc //=.
have := @local_error_ok Y phi F q q2 ty tphi (unzip1 (leggauss (5 * q)))
          (unzip2 (leggauss (5 * q))) t n Eloc`_n
          ty_mesh tphi_mesh ty_gt0 tphi_gt0 size_Y size_phi.
by case: local_error => /= [e _|//]; apply: IH.
Qed.

Lemma evalderiv_const (y0 : R) ty q (x : R) :
  mesh ty -> evalderiv (nseq ((size ty).-1 * q + 1) y0) ty q x = Ok 0.
Proof.
move=> ty_mesh.
have [x_out|] := boolP ((x < ty`_0) || (last 0 ty <= x)).
  by rewrite evalderiv_outside.
rewrite negb_or -leNgt -ltNge => x_span.
have [i i_t x_in] := span_inside x_span.
have size_Y := size_nseq ((size ty).-1 * q + 1) y0.
rewrite (evalderiv_local _ _ ty_mesh i_t x_in) (shaped_reach size_Y i_t).
congr Ok; rewrite -[RHS](mulr0 y0).
have ti_ne : ty`_i != ty`_i.+1 by rewrite lt_eqF // mesh_ltn // -ltn_predRL.
rewrite -[X in _ = y0 * X](sum_dLagr q x ti_ne) mulr_sumr.
apply: eq_bigr => j _.
rewrite nth_nseq; case: ifP => // /negbT; rewrite -leqNgt => short.
have := shaped_reach size_Y i_t; rewrite size_nseq => reach.
by move: (leq_trans reach short); rewrite ltn_add2l ltnNge -ltnS ltn_ord.
Qed.

(** X27: The estimate vanishes on a constant forward solution of [y' = 0]:
    every local contribution and the total are 0. *)
Theorem get_err_lin_constant (y0 : R) phi q (q2 : nat) ty tphi :
  mesh ty -> mesh tphi -> (0 < size ty)%N -> (0 < size tphi)%N ->
  (0 < q)%N -> size phi = ((size tphi).-1 * q2 + 1)%N ->
  last 0 tphi <= last 0 ty ->
  exists2 t, reconcile ty tphi = Ok (Some t)
    & get_err_lin leggauss (nseq ((size ty).-1 * q + 1) y0) phi (fun=> 0)
        q q2 ty tphi
      = Ok (0, nseq (size t).-1 0, t).
Proof.
move=> ty_mesh tphi_mesh ty_gt0 tphi_gt0 q_gt0 size_phi reach.
have [t grid] := reconcile_reach ty_gt0 tphi_gt0 reach; exists t => //.
rewrite /get_err_lin grid /= /leggauss_call muln_eq0 /= eqn0Ngt q_gt0 /=.
set Y := nseq _ y0; have size_Y : size Y = ((size ty).-1 * q + 1)%N.
  by rewrite size_nseq.
rewrite forM_skip /=; last first.
  rewrite foldl_addr add0r big1_seq // => e /=.
  by rewrite mem_nseq => /andP[_ /eqP].
move=> n; rewrite mem_iota /= add0n => n_N.
rewrite /local_error forM_skip /=; last first.
  congr Ok; apply: (@eq_from_nth _ 0) => [|k _].
    by rewrite size_set_nth size_nseq; apply/maxn_idPr.
  by rewrite nth_set_nth /=; case: eqP => // ->.
move=> k _; rewrite evalderiv_const //=.
have := @evalfunc_ok _ Y ty q _ ty_mesh ty_gt0 size_Y.
move=> /(_ ([seq (t`_n.+1 - t`_n) / 2 * pk + (t`_n + t`_n.+1) / 2
            | pk <- unzip1 (leggauss (5 * q))]`_k)).
case: evalfunc => //= YL _.
have := @evalfunc_ok _ phi tphi q2 _ tphi_mesh tphi_gt0 size_phi.
move=> /(_ ([seq (t`_n.+1 - t`_n) / 2 * pk + (t`_n + t`_n.+1) / 2
            | pk <- unzip1 (leggauss (5 * q))]`_k)).
case: evalfunc => //= PL _.
by rewrite oppr0 mul0r addr0 mulr0 addr0.
Qed.

End ErrorEstimate.

(** ** More on the threshold-crossing locator *)

Section LocatorProperties.

Variable R : realFieldType.
Implicit Types (Y t : seq R) (q i k m n : nat) (target : R).

Lemma crosses_down_true Y q target i :
  crosses_down Y q target i = Ok true ->
  readable Y q i /\ (target < Y`_(q * i)) && (Y`_(q * i + 1) < target).
Proof.
have [i_Y|short] := boolP (readable Y q i).
  by rewrite crosses_downE // => -[->].
rewrite /crosses_down; case: item => //= a; case: ifP => // _.
by rewrite item_oversize // leqNgt.
Qed.

Lemma crosses_up_true Y q target i :
  crosses_up Y q target i = Ok true ->
  readable Y q i /\ (Y`_(q * i) < target) && (target < Y`_(q * i + 1)).
Proof.
have [i_Y|short] := boolP (readable Y q i).
  by rewrite crosses_upE // => -[->].
rewrite /crosses_up; case: item => //= a; case: ifP => // _.
by rewrite item_oversize // leqNgt.
Qed.

(** A scan that binds the locals broke at a readable, straddling
    subinterval, the first such one of its range. *)
Lemma scan_some Y t q target m n (b : bracket R) :
  scan Y t q target (iota m n) = Ok (Some b) ->
  exists i, [/\ (m <= i < m + n)%N, readable Y q i, straddles Y q target i,
                bind_bracket Y t q i = Ok b
              & forall k, (m <= k < i)%N -> readable Y q k ->
                  ~~ straddles Y q target k].
Proof.
elim: n m => [|n IH] m //=.
case down: crosses_down => [[]|] //=.
  have [m_Y m_down] := crosses_down_true down.
  case bound: bind_bracket => [b'|] //= [<-]; exists m.
  split; rewrite ?leqnn ?addnS ?ltnS ?leq_addr /straddles ?m_down //.
  by move=> k; rewrite leqNgt andbC; case: ltnP.
case up: crosses_up => [[]|] //=.
  have [m_Y m_up] := crosses_up_true up.
  case bound: bind_bracket => [b'|] //= [<-]; exists m.
  split; rewrite ?leqnn ?addnS ?ltnS ?leq_addr /straddles ?m_up ?orbT //.
  by move=> k; rewrite leqNgt andbC; case: ltnP.
case/IH=> i [/andP[m_i i_n] i_Y i_hit bound before]; exists i.
split=> // [|k]; first by rewrite (ltnW m_i) -addSnnS.
rewrite leq_eqVlt => /andP[/orP[/eqP<-|m_k] k_i] k_Y; last first.
  by apply: before => //; rewrite m_k.
by move: down up; rewrite crosses_downE // crosses_upE // /straddles
  => -[->] [->].
Qed.

(** A returned window comes from the first readable, straddling
    subinterval [i], which has a right neighbour in the mesh. *)
Lemma window_numtime_some Y t q target (w : window R) :
  window_numtime Y t q target = Ok w ->
  exists i, [/\ (i.+2 < size t)%N, readable Y q i, straddles Y q target i,
                window_at Y t q target i = Ok w
              & forall k, (k < i)%N -> readable Y q k ->
                  ~~ straddles Y q target k].
Proof.
rewrite /window_numtime; case found: scan => [[b|]|] //.
have [i [i_t i_Y i_hit bound before]] := scan_some found.
rewrite add0n /= ltn_predRL in i_t.
move: bound; rewrite bind_bracketE //; case: ifP => // i_t2 [<-].
have Y_gt0 : (0 < size Y)%N by apply: leq_ltn_trans i_Y.
rewrite /bind /bracket_at /bY1 /bY2 last_slice0 //.
rewrite -(PoszD (q * i) q) last_slice0 // PoszD => run.
exists i; split=> //; rewrite /window_at i_t2 -run.
by rewrite /crossing /truediv /Y1_last /Y2_last; case: ifP.
Qed.

(** X28: The four returned indices are consecutive, the left one is at
    least -1, and they index the four returned nodes in the mesh, with
    Python's wrap-around for the index -1; the four returned arrays are
    the prefixes of [Y] up to the nodes. *)
Theorem window_numtime_nodes Y t q target (w : window R) :
  window_numtime Y t q target = Ok w ->
  [/\ [/\ -1 <= NL w, N1 w = NL w + 1, N2 w = NL w + 2 & NR w = NL w + 3],
      [/\ getitem t (NL w) = Ok (tL w), getitem t (N1 w) = Ok (t1 w),
          getitem t (N2 w) = Ok (t2 w) & getitem t (NR w) = Ok (tR w)]
    & [/\ YL w = slice0 Y (q%:Z * NL w + 1), Y1 w = slice0 Y (q%:Z * N1 w + 1),
          Y2 w = slice0 Y (q%:Z * N2 w + 1)
        & YR w = slice0 Y (q%:Z * NR w + 1)]].
Proof.
case/window_numtime_some=> i [i_t _ _ run _].
have i_t1 : (i.+1 < size t)%N by apply: ltnW.
have i_t0 : (i < size t)%N by apply: ltnW.
have t_gt0 : (0 < size t)%N by apply: leq_ltn_trans i_t.
move: run; rewrite /window_at i_t => -[<-] /=.
split; split.
- by rewrite lerBrDl addrC subrr.
- by ring.
- by ring.
- by ring.
- case: i {i_t i_t1} i_t0 => [|i] i_t0; first by rewrite (getitem_last 0).
  by rewrite intS addrC addKr /= (item_nth 0) // ltnW.
- by rewrite (item_nth 0).
- by rewrite addn1 (item_nth 0).
- by rewrite -[(1 + 1)%N]/2%N addn2 (item_nth 0).
- by congr slice0; rewrite PoszM; ring.
- by [].
- by rewrite mulnDr muln1.
- by rewrite mulnDr [((1 + 1) * q)%N]mulnC.
Qed.

(** X29: When the two interpolation values differ, the returned
    crossing time is a number: the one a secant step between the two
    bracketing nodes towards the target returns. *)
Theorem window_numtime_secant Y t q target (w : window R) :
  window_numtime Y t q target = Ok w -> last 0 (Y1 w) != last 0 (Y2 w) ->
  exists2 x, num_time w = Finite x
           & sec_method_step (last 0 (Y1 w)) (last 0 (Y2 w)) (t1 w) (t2 w)
               target
             = Finite x.
Proof.
case/window_numtime_some=> i [i_t _ _ run _].
move: run; rewrite /window_at i_t => -[<-] /=.
have -> : last 0 (take (q * i + 1) Y) = Y1_last Y q i.
  by rewrite /Y1_last -(PoszD (q * i) 1).
have -> : last 0 (take (q * i + q + 1) Y) = Y2_last Y q i.
  by rewrite /Y2_last -(PoszD (q * i) q) -(PoszD (q * i + q)%N 1).
move=> distinct.
have differ : Y2_last Y q i - Y1_last Y q i != 0.
  by rewrite subr_eq0 eq_sym.
rewrite /crossing (negPf differ) sec_method_stepE (negPf distinct).
eexists; first by reflexivity.
by congr Finite; field.
Qed.

(** X30: For [q = 1] on a mesh the returned nodes and crossing time are
    ordered as the source's comment says: [t1 < num_time < t2 < tR], and
    [tL < t1] unless the bracket is the first subinterval. *)
Theorem window_numtime_between Y t target (w : window R) :
  mesh t -> window_numtime Y t 1 target = Ok w ->
  [/\ exists2 x, num_time w = Finite x & t1 w < x < t2 w, t2 w < tR w
    & 0 <= NL w -> tL w < t1 w].
Proof.
move=> t_mesh /window_numtime_some[i [i_t i_Y i_hit run _]].
move: run; rewrite /window_at i_t => -[<-] /=.
have t12 : t`_i < t`_i.+1 by rewrite mesh_ltn // ltnW.
have y1E : Y1_last Y 1 i = Y`_i.
  rewrite /Y1_last mul1n -(PoszD i 1) /= addn1 (last_take 0) //=.
  by move: i_Y; rewrite /readable mul1n addn1 => /ltnW.
have y2E : Y2_last Y 1 i = Y`_i.+1.
  rewrite /Y2_last mul1n -(PoszD i 1) addn1 -(PoszD i.+1 1) addn1 /=.
  by rewrite (last_take 0) //=; move: i_Y; rewrite /readable mul1n addn1.
move: i_hit; rewrite /straddles mul1n addn1 => i_hit.
have differ : Y`_i.+1 - Y`_i != 0.
  rewrite subr_eq0; case/orP: i_hit => /andP[lo hi].
    by rewrite lt_eqF // (lt_trans hi).
  by rewrite gt_eqF // (lt_trans lo).
rewrite /crossing y1E y2E (negPf differ).
set s := (target - Y`_i) / (Y`_i.+1 - Y`_i).
have ratio (u d : R) : 0 < u -> u < d -> 0 < u / d < 1.
  move=> u_gt0 u_d; have d_gt0 : 0 < d := lt_trans u_gt0 u_d.
  by rewrite divr_gt0 // ltr_pdivrMr // mul1r.
have s01 : 0 < s < 1.
  case/orP: i_hit => /andP[lo hi].
    have -> : s = (Y`_i - target) / (Y`_i - Y`_i.+1).
      by rewrite /s -[RHS]mulrNN -invrN !opprB.
    by apply: ratio; rewrite ?subr_gt0 // ltrD2l ltrN2.
  by apply: ratio; rewrite ?subr_gt0 // ltrD2r.
have -> : s * t`_i.+1 + (1 - s) * t`_i = t`_i + s * (t`_i.+1 - t`_i) by ring.
case/andP: s01 => s_gt0 s_lt1; split.
- eexists; first by reflexivity.
  rewrite ltrDl mulr_gt0 ?subr_gt0 //= -ltrBrDl.
  by rewrite -[ltRHS]mul1r ltr_pM2r // subr_gt0.
- by rewrite mesh_ltn.
- case: i {i_Y i_hit y1E y2E differ s s_gt0 s_lt1 t12} i_t => [|i] i_t //=.
  by move=> _; rewrite mesh_ltn // (ltn_trans _ i_t) // ltnW.
Qed.

End LocatorProperties.

(** ** Rational instances of the further properties *)

Section FurtherInstances.

Lemma sec_method_step_affine_witness :
  sec_method_step (2%:Q * 0%:Q + 1%:Q) (2%:Q * 1%:Q + 1%:Q) 0%:Q 1%:Q 5%:Q
  = Finite ((5%:Q - 1%:Q) / 2%:Q).
Proof. by apply: sec_method_step_affine; vm_compute. Defined.

Lemma sec_method_step_sym_witness :
  exists2 x2, sec_method_step 1%:Q 3%:Q 0%:Q 1%:Q 2%:Q = Finite x2
            & sec_method_step 3%:Q 1%:Q 1%:Q 0%:Q 2%:Q = Finite x2.
Proof. by apply: sec_method_step_sym; vm_compute. Defined.

Lemma sec_method_step_between_witness :
  exists2 x2, sec_method_step 1%:Q 3%:Q 0%:Q 1%:Q 2%:Q = Finite x2
            & 0%:Q < x2 < 1%:Q.
Proof. by apply: sec_method_step_between; vm_compute. Defined.

Lemma inv_quad_step_exact_witness :
  inv_quad_step 0%:Q 1%:Q 2%:Q
    (1%:Q * 0%:Q ^+ 2 + 0%:Q * 0%:Q + 0%:Q)
    (1%:Q * 1%:Q ^+ 2 + 0%:Q * 1%:Q + 0%:Q)
    (1%:Q * 2%:Q ^+ 2 + 0%:Q * 2%:Q + 0%:Q) 3%:Q
  = Finite (1%:Q * 3%:Q ^+ 2 + 0%:Q * 3%:Q + 0%:Q).
Proof.
by apply: (@inv_quad_step_exact _ 1%:Q 0%:Q 0%:Q 0%:Q 1%:Q 2%:Q 3%:Q);
   vm_compute.
Defined.

Lemma inv_quad_step_hit_witness :
  inv_quad_step 0%:Q 1%:Q 2%:Q 5%:Q 6%:Q 7%:Q 0%:Q = Finite 5%:Q.
Proof. by apply: inv_quad_step_hit; vm_compute. Defined.

Lemma Lagr_cardinal_witness :
  Lagr 0%:Q 1%:Q 2 1 (linspace 0%:Q 1%:Q 3)`_1 = (1%N == 1%N)%:R.
Proof. by apply: Lagr_cardinal. Defined.

Lemma dLagr_is_derivative_witness :
  exists2 P : {poly rat}, (size P <= 2)%N
    & forall x, Lagr 0%:Q 1%:Q 1 0 x = P.[x]
                /\ dLagr 0%:Q 1%:Q 1 0 x = P^`().[x].
Proof. by apply: dLagr_is_derivative. Defined.

Lemma Lagr_partition_of_unity_witness :
  \sum_(j < 3) Lagr 0%:Q 1%:Q 2 j (1%:Q / 3%:Q) = 1
  /\ \sum_(j < 3) dLagr 0%:Q 1%:Q 2 j (1%:Q / 3%:Q) = 0.
Proof. by apply: Lagr_partition_of_unity. Defined.

Lemma TestLagr_cardinal_witness :
  TestLagr 0%:Q 1%:Q 2 1 (linspace 0%:Q 1%:Q 2)`_0 = (0%N == 1%N)%:R
  /\ forall k x, TestLagr 0%:Q 1%:Q 1 k x = 1.
Proof. by apply: TestLagr_cardinal. Defined.

Lemma Lagr_reproduces_witness :
  \sum_(j < 2) ('X + 1%:P).[(linspace 0%:Q 1%:Q 2)`_j]
               * Lagr 0%:Q 1%:Q 1 j (1%:Q / 3%:Q)
  = ('X + 1%:P).[1%:Q / 3%:Q].
Proof. by apply: Lagr_reproduces => //; rewrite size_XaddC. Defined.

Lemma evaluators_inside_witness :
  evalfunc [:: 1%:Q; 2%:Q] [:: 0%:Q; 1%:Q] 1 (1%:Q / 2%:Q)
  = (if (1 * 0 + 1 < size [:: 1%:Q; 2%:Q])%N
     then Ok (\sum_(j < 2) [:: 1%:Q; 2%:Q]`_(1 * 0 + j)
                * Lagr [:: 0%:Q; 1%:Q]`_0 [:: 0%:Q; 1%:Q]`_1 1 j
                    (1%:Q / 2%:Q))
     else Raise IndexError)
  /\ evalderiv [:: 1%:Q; 2%:Q] [:: 0%:Q; 1%:Q] 1 (1%:Q / 2%:Q)
     = (if (1 * 0 + 1 < size [:: 1%:Q; 2%:Q])%N
        then Ok (\sum_(j < 2) [:: 1%:Q; 2%:Q]`_(1 * 0 + j)
                   * dLagr [:: 0%:Q; 1%:Q]`_0 [:: 0%:Q; 1%:Q]`_1 1 j
                       (1%:Q / 2%:Q))
        else Raise IndexError).
Proof.
by apply: (@evaluators_inside _ [:: 1%:Q; 2%:Q] [:: 0%:Q; 1%:Q] 1
             (1%:Q / 2%:Q) 0).
Defined.

Lemma evaluators_reproduce_witness :
  evalfunc [:: 1%:Q; 2%:Q] [:: 0%:Q; 1%:Q] 1 (1%:Q / 2%:Q)
  = Ok ('X + 1%:P).[1%:Q / 2%:Q]
  /\ (1%:Q / 2%:Q != last 0 [:: 0%:Q; 1%:Q] ->
      evalderiv [:: 1%:Q; 2%:Q] [:: 0%:Q; 1%:Q] 1 (1%:Q / 2%:Q)
      = Ok ('X + 1%:P)^`().[1%:Q / 2%:Q]).
Proof.
apply: evaluators_reproduce => //; first by rewrite size_XaddC.
split=> // -[|i] // [|[|j]] // _ _; rewrite hornerD hornerX hornerC;
  by apply/eqP; vm_compute.
Defined.

Lemma evaluators_defined_witness :
  is_ok (evalfunc [:: 1%:Q; 2%:Q] [:: 0%:Q; 1%:Q] 1 (1%:Q / 2%:Q))
  && is_ok (evalderiv [:: 1%:Q; 2%:Q] [:: 0%:Q; 1%:Q] 1 (1%:Q / 2%:Q)).
Proof. by apply: evaluators_defined. Defined.

Lemma GaussQuad_monotone_witness :
  GaussQuad midpoint_rule 0%:Q 1%:Q 5 (fun x => x)
  <= GaussQuad midpoint_rule 0%:Q 1%:Q 5 (fun x => x + 1)
  /\ GaussQuad midpoint_rule 0%:Q 0%:Q 5 (fun x => x) = 0.
Proof.
apply: GaussQuad_monotone; [by vm_compute | by vm_compute | move=> x].
by rewrite lerDl.
Defined.

Lemma solve_lin_outcome_witness :
  match solve_lin midpoint_rule 3%:Q (fun=> 0) [:: 0%:Q; 1%:Q] 1 with
  | Ok y =>
      forall n, (n < (size [:: 0%:Q; 1%:Q]).-1)%N ->
        rsubmx (local_matrix midpoint_rule (fun=> 0) [:: 0%:Q; 1%:Q]`_n
                  [:: 0%:Q; 1%:Q]`_n.+1 1) \in unitmx
  | Raise e =>
      e = LinAlgError
      /\ exists2 n, (n < (size [:: 0%:Q; 1%:Q]).-1)%N
           & rsubmx (local_matrix midpoint_rule (fun=> 0) [:: 0%:Q; 1%:Q]`_n
                       [:: 0%:Q; 1%:Q]`_n.+1 1) \notin unitmx
  end.
Proof. by apply: solve_lin_outcome. Defined.

Lemma solve_lin_galerkin_witness :
  GaussQuad midpoint_rule [:: 0%:Q; 1%:Q]`_0 [:: 0%:Q; 1%:Q]`_1 (5 * 1)
    (fun x =>
       TestLagr [:: 0%:Q; 1%:Q]`_0 [:: 0%:Q; 1%:Q]`_1 1 0 x
       * (\sum_(i < 2) (nseq 2 3%:Q)`_(0 * 1 + i)
            * dLagr [:: 0%:Q; 1%:Q]`_0 [:: 0%:Q; 1%:Q]`_1 1 i x
          - 0 * \sum_(i < 2) (nseq 2 3%:Q)`_(0 * 1 + i)
                  * Lagr [:: 0%:Q; 1%:Q]`_0 [:: 0%:Q; 1%:Q]`_1 1 i x))
  = 0.
Proof.
apply: (@solve_lin_galerkin _ midpoint_rule 3%:Q (fun=> 0) [:: 0%:Q; 1%:Q] 1
          (nseq 2 3%:Q) 0 0) => //.
by apply: solve_lin_zero => //; exact: midpoint_rule_positive5.
Defined.

Lemma solve_lin_scale_witness :
  solve_lin midpoint_rule (2%:Q * 3%:Q) (fun=> 0) [:: 0%:Q; 1%:Q] 1
  = Ok [seq 2%:Q * v | v <- nseq 2 3%:Q].
Proof.
apply: solve_lin_scale => //.
by apply: solve_lin_zero => //; exact: midpoint_rule_positive5.
Defined.

Lemma midpoint_rule_affine5 : affine_rule (midpoint_rule 5).
Proof.
rewrite /affine_rule /midpoint_rule !big_map [iota 0 5]/= !big_cons !big_nil.
by apply/andP; split; vm_compute.
Qed.

Lemma solve_lin_trapezoid_witness :
  (nseq 2 3%:Q)`_1 * (1 - 0 * ([:: 0%:Q; 1%:Q]`_1 - [:: 0%:Q; 1%:Q]`_0) / 2)
  = (nseq 2 3%:Q)`_0
    * (1 + 0 * ([:: 0%:Q; 1%:Q]`_1 - [:: 0%:Q; 1%:Q]`_0) / 2).
Proof.
apply: (@solve_lin_trapezoid _ midpoint_rule 3%:Q 0 [:: 0%:Q; 1%:Q]
          (nseq 2 3%:Q) 0) => //; first exact: midpoint_rule_affine5.
by apply: solve_lin_zero => //; exact: midpoint_rule_positive5.
Defined.

Lemma get_err_lin_run :
  get_err_lin midpoint_rule [:: 1%:Q; 1%:Q; 1%:Q] [:: 1%:Q; 1%:Q] (fun=> 0)
    1 1 [:: 0%:Q; 1%:Q; 2%:Q] [:: 0%:Q; 2%:Q]
  = Ok (0, [:: 0; 0], [:: 0%:Q; 1%:Q; 2%:Q]).
Proof. by apply/eqP; vm_compute. Qed.

Lemma get_err_lin_shape_witness :
  [/\ size [:: 0; 0 : rat] = (size [:: 0%:Q; 1%:Q; 2%:Q]).-1,
      0 = \sum_(e <- [:: 0; 0 : rat]) e,
      last 0 [:: 0%:Q; 1%:Q; 2%:Q] = last 0 [:: 0%:Q; 2%:Q]
    & [:: 0%:Q; 1%:Q; 2%:Q] = [:: 0%:Q; 1%:Q; 2%:Q]
      /\ last 0 [:: 0%:Q; 1%:Q; 2%:Q] = last 0 [:: 0%:Q; 2%:Q]
      \/ exists2 i, (i < size [:: 0%:Q; 1%:Q; 2%:Q])%N
           & [/\ [:: 0%:Q; 1%:Q; 2%:Q]
                 = rcons (take i [:: 0%:Q; 1%:Q; 2%:Q])
                         (last 0 [:: 0%:Q; 2%:Q]),
                 last 0 [:: 0%:Q; 2%:Q] < [:: 0%:Q; 1%:Q; 2%:Q]`_i
               & forall j, (j < i)%N ->
                   [:: 0%:Q; 1%:Q; 2%:Q]`_j <= last 0 [:: 0%:Q; 2%:Q]]].
Proof. exact: (get_err_lin_shape get_err_lin_run). Defined.

Lemma get_err_lin_short_forward_mesh_witness :
  get_err_lin midpoint_rule [:: 1%:Q; 1%:Q] [:: 1%:Q; 1%:Q] (fun=> 0) 1 1
    [:: 0%:Q; 1%:Q] [:: 0%:Q; 2%:Q]
  = Raise UnboundLocalError.
Proof. by apply: get_err_lin_short_forward_mesh. Defined.

Lemma get_err_lin_defined_witness :
  is_ok (get_err_lin midpoint_rule [:: 1%:Q; 2%:Q; 4%:Q] [:: 1%:Q; 1%:Q]
           (fun x => x) 1 1 [:: 0%:Q; 1%:Q; 2%:Q] [:: 0%:Q; 2%:Q]).
Proof. by apply: get_err_lin_defined. Defined.

Lemma get_err_lin_constant_witness :
  exists2 t, reconcile [:: 0%:Q; 1%:Q; 2%:Q] [:: 0%:Q; 2%:Q] = Ok (Some t)
    & get_err_lin midpoint_rule
        (nseq ((size [:: 0%:Q; 1%:Q; 2%:Q]).-1 * 1 + 1) 3%:Q) [:: 1%:Q; 1%:Q]
        (fun=> 0) 1 1 [:: 0%:Q; 1%:Q; 2%:Q] [:: 0%:Q; 2%:Q]
      = Ok (0, nseq (size t).-1 0, t).
Proof. by apply: get_err_lin_constant. Defined.

Lemma window_numtime_descent :
  window_numtime Y_descent t_descent 1 (3%:Q / 2%:Q) = Ok window_descent.
Proof. by apply/eqP; vm_compute. Qed.

Lemma window_numtime_nodes_witness :
  [/\ [/\ -1 <= NL window_descent,
          N1 window_descent = NL window_descent + 1,
          N2 window_descent = NL window_descent + 2
        & NR window_descent = NL window_descent + 3],
      [/\ getitem t_descent (NL window_descent) = Ok (tL window_descent),
          getitem t_descent (N1 window_descent) = Ok (t1 window_descent),
          getitem t_descent (N2 window_descent) = Ok (t2 window_descent)
        & getitem t_descent (NR window_descent) = Ok (tR window_descent)]
    & [/\ YL window_descent
          = slice0 Y_descent (1%:Z * NL window_descent + 1),
          Y1 window_descent
          = slice0 Y_descent (1%:Z * N1 window_descent + 1),
          Y2 window_descent
          = slice0 Y_descent (1%:Z * N2 window_descent + 1)
        & YR window_descent
          = slice0 Y_descent (1%:Z * NR window_descent + 1)]].
Proof. exact: (window_numtime_nodes window_numtime_descent). Defined.

Lemma window_numtime_secant_witness :
  exists2 x, num_time window_descent = Finite x
           & sec_method_step (last 0 (Y1 window_descent))
               (last 0 (Y2 window_descent)) (t1 window_descent)
               (t2 window_descent) (3%:Q / 2%:Q)
             = Finite x.
Proof. by apply: (window_numtime_secant window_numtime_descent). Defined.

Lemma window_numtime_between_witness :
  [/\ exists2 x, num_time window_descent = Finite x
                 & t1 window_descent < x < t2 window_descent,
      t2 window_descent < tR window_descent
    & 0 <= NL window_descent -> tL window_descent < t1 window_descent].
Proof.
by apply: (@window_numtime_between _ Y_descent t_descent (3%:Q / 2%:Q));
   [vm_compute | exact: window_numtime_descent].
Defined.

End FurtherInstances.
